(** * The random beacon and the gossip layer of the DEX consensus package

    A shallow embedding of [pkg/consensus/random_beacon.go] and of the
    inventory and data-serving loops of [pkg/consensus/networking.go].

    Go's [int] is modelled as [Z]: every integer the embedded code
    computes with is a slice length, a round number compared against one,
    or an index checked against one, so the 64-bit wrap-around is never
    reached.  A slice is a [list], a [map[K]V] a [gmap K V], a nilable
    pointer result an [option].  A method that mutates its receiver takes
    the receiver's state and returns the state it leaves behind.  The
    mutex of each component makes every method one step; the embedding is
    sequential. *)

From Stdlib Require Import ZArith String Strings.Byte.
From stdpp Require Import base decidable option list gmap strings fin_maps.

Open Scope Z_scope.

(** ** Run-time outcomes *)

(** A Go call either returns or panics. *)
Inductive outcome (A : Type) : Type :=
  | Returns (a : A)
  | Panics (msg : string).
Arguments Returns {A} a.
Arguments Panics {A} msg.

(** [l[i]] on a slice: a run-time panic outside [0 <= i < len(l)]. *)
Definition index {A : Type} (l : list A) (i : Z) : option A :=
  if decide (0 <= i) then l !! Z.to_nat i else None.

(** [len(l)] as a Go [int]. *)
Definition len {A : Type} (l : list A) : Z := Z.of_nat (length l).

(** ** The primitives the beacon is built on

    The hash function, the [Rand] stream, the threshold-signature scheme
    and the wire encoding live in files of the package that are not part
    of this development; the beacon is verified against their
    interface. *)
Class Primitives : Type := {
  (** [Hash]: a fixed-width digest, comparable with [==] and usable as a
      map key. *)
  Hash : Type;
  Hash_eq_dec :: EqDecision Hash;
  Hash_countable :: Countable Hash;
  (** the zero value of [Hash] *)
  zero_hash : Hash;
  (** [hash(b)] *)
  hash : list byte -> Hash;
  (** [h[:]], the bytes of a digest *)
  hash_bytes : Hash -> list byte;
  (** [Addr]: an account identifier, comparable with [==] *)
  Addr : Type;
  Addr_eq_dec :: EqDecision Addr;
  (** a group's public key and a recovered group signature *)
  PublicKey : Type;
  Signature : Type;
  (** [Rand] and its methods [Derive] and [Mod] *)
  Rand : Type;
  Derive : Rand -> list byte -> Rand;
  Mod : Rand -> Z -> Z;
  (** [Rand.Perm(k, n)] *)
  Perm : Rand -> Z -> Z -> list Z;
}.

(** Modelled from the spec: [Rand] and its methods are not among the
    embedded files.  The specification promises of them that [Mod(n)]
    lies in [0 <= result < n], which only a positive [n] allows, and that
    [Perm(k, n)] is a permutation of [0..n-1] whose first [k] positions
    are the [k]-element prefix of the shuffle driven by the stream, that
    is of [Perm(n, n)]. *)
Class RandLaws `{Primitives} : Prop := {
  Mod_range : forall (r : Rand) (n : Z), 0 < n -> 0 <= Mod r n < n;
  Perm_permutation : forall (r : Rand) (k n : Z),
    0 <= k <= n -> Perm r k n ≡ₚ seqZ 0 n;
  Perm_prefix : forall (r : Rand) (k n : Z) (i : nat),
    0 <= k <= n -> Z.of_nat i < k -> Perm r k n !! i = Perm r n n !! i;
}.

Section Beacon.
Context `{Primitives}.

(** ** Data model *)

(** Modelled from the spec: the type declarations of [Config], [Group],
    [RandBeaconSig] and [RandBeaconSigShare] are not among the embedded
    files; the fields are the ones the embedded code reads and writes. *)
Record Config : Type := {
  BlockTime : Z;
  GroupSize : Z;
  GroupThreshold : Z;
}.

Record Group : Type := {
  Members : list Addr;
  PK : PublicKey;
}.

(** [RandBeaconSig]: fields [Round], [LastRandVal], [Sig]. *)
Record RandBeaconSig : Type := {
  sigRound : Z;
  sigLastRandVal : Hash;
  sigSig : list byte;
}.

(** [RandBeaconSigShare]: fields [Owner], [Round], [LastSigHash] and the
    share bytes. *)
Record RandBeaconSigShare : Type := {
  shareOwner : Addr;
  shareRound : Z;
  shareLastSigHash : Hash;
  shareSig : list byte;
}.

(** The methods of the signature scheme and of the encoding that
    [RecvRandBeaconSigShare] calls. *)
Class Scheme : Type := {
  (** [s.Hash()] of a share *)
  shareHash : RandBeaconSigShare -> Hash;
  (** [recoverRandBeaconSig(shares)] *)
  recoverRandBeaconSig : gmap Hash RandBeaconSigShare -> Signature;
  (** [rbs.Encode(withSig)] *)
  Encode : RandBeaconSig -> bool -> list byte;
  (** [sig.Verify(&pk, msg)] *)
  Verify : Signature -> PublicKey -> list byte -> bool;
  (** [sig.Serialize()] *)
  Serialize : Signature -> list byte;
}.
Context `{Scheme}.

(** The errors of the beacon, with the values their messages print. *)
Inductive error : Type :=
  | ErrShareRound (got expected : Z)
  | ErrShareLastSigHash (got expected : Hash)
  | ErrSigRound (got expected : Z)
  | ErrAddrNotInCommittee.

(** [RandomBeacon] without its mutex. *)
Record RandomBeacon : Type := {
  cfg : Config;
  nextRBCmteHistory : list Z;
  nextNtCmteHistory : list Z;
  nextBPCmteHistory : list Z;
  groups : list Group;
  rbRand : Rand;
  ntRand : Rand;
  bpRand : Rand;
  curRoundShares : gmap Hash RandBeaconSigShare;
  sigHistory : list RandBeaconSig;
}.

(** ** Operations *)

Definition bytes (s : string) : list byte := list_byte_of_string s.

Definition NewRandomBeacon (seed : Rand) (gs : list Group) (c : Config)
  : RandomBeacon :=
  let rb := Derive seed (bytes "random beacon committee rand seed") in
  let bp := Derive seed (bytes "block proposer committee rand seed") in
  let nt := Derive seed (bytes "notarization committee rand seed") in
  {| cfg := c;
     groups := gs;
     rbRand := rb;
     bpRand := bp;
     ntRand := nt;
     nextRBCmteHistory := [Mod rb (len gs)];
     nextNtCmteHistory := [Mod nt (len gs)];
     nextBPCmteHistory := [Mod bp (len gs)];
     curRoundShares := ∅;
     sigHistory :=
       [ {| sigRound := 0; sigLastRandVal := zero_hash;
            sigSig := bytes "DEX random beacon 0th signature" |} ] |}.

Definition GetShare (r : RandomBeacon) (h : Hash) : option RandBeaconSigShare :=
  curRoundShares r !! h.

Definition round (r : RandomBeacon) : Z := len (sigHistory r).

Definition Round (r : RandomBeacon) : Z := round r.

Definition History (r : RandomBeacon) : list RandBeaconSig := sigHistory r.

Definition set_curRoundShares (m : gmap Hash RandBeaconSigShare)
  (r : RandomBeacon) : RandomBeacon :=
  {| cfg := cfg r;
     nextRBCmteHistory := nextRBCmteHistory r;
     nextNtCmteHistory := nextNtCmteHistory r;
     nextBPCmteHistory := nextBPCmteHistory r;
     groups := groups r;
     rbRand := rbRand r;
     ntRand := ntRand r;
     bpRand := bpRand r;
     curRoundShares := m;
     sigHistory := sigHistory r |}.

(** [RecvRandBeaconSigShare]: the state it leaves and what it returns.
    The line it prints to the standard output is left out.  The share is
    stored before the threshold is looked at, so a panic of the
    verification leaves it stored. *)
Definition RecvRandBeaconSigShare (r : RandomBeacon) (s : RandBeaconSigShare)
  (groupID : Z)
  : RandomBeacon * outcome (option RandBeaconSig * option error) :=
  if decide (round r <> shareRound s) then
    (r, Returns (None, Some (ErrShareRound (shareRound s) (round r))))
  else
    match index (sigHistory r) (shareRound s - 1) with
    | None => (r, Panics "index out of range")
    | Some prev =>
      let h := hash (sigSig prev) in
      if decide (h <> shareLastSigHash s) then
        (r, Returns (None, Some (ErrShareLastSigHash (shareLastSigHash s) h)))
      else
        let shares := <[shareHash s := s]> (curRoundShares r) in
        let r' := set_curRoundShares shares r in
        if decide (GroupThreshold (cfg r) <= Z.of_nat (size shares)) then
          let sig := recoverRandBeaconSig shares in
          let rbs := {| sigRound := shareRound s;
                        sigLastRandVal := shareLastSigHash s;
                        sigSig := [] |} in
          let msg := Encode rbs false in
          match index (groups r) groupID with
          | None => (r', Panics "index out of range")
          | Some g =>
            if Verify sig (PK g) msg then
              (r', Returns (Some {| sigRound := sigRound rbs;
                                    sigLastRandVal := sigLastRandVal rbs;
                                    sigSig := Serialize sig |}, None))
            else
              (r', Panics "impossible: random beacon group signature verification failed")
          end
        else (r', Returns (None, None))
    end.

Definition deriveRand (r : RandomBeacon) (h : Hash) : RandomBeacon :=
  let rb := Derive (rbRand r) (hash_bytes h) in
  let nt := Derive (ntRand r) (hash_bytes h) in
  let bp := Derive (bpRand r) (hash_bytes h) in
  {| cfg := cfg r;
     nextRBCmteHistory := nextRBCmteHistory r ++ [Mod rb (len (groups r))];
     nextNtCmteHistory := nextNtCmteHistory r ++ [Mod nt (len (groups r))];
     nextBPCmteHistory := nextBPCmteHistory r ++ [Mod bp (len (groups r))];
     groups := groups r;
     rbRand := rb;
     ntRand := nt;
     bpRand := bp;
     curRoundShares := curRoundShares r;
     sigHistory := sigHistory r |}.

Definition RecvRandBeaconSig (r : RandomBeacon) (s : RandBeaconSig)
  : RandomBeacon * option error :=
  if decide (round r <> sigRound s) then
    (r, Some (ErrSigRound (sigRound s) (round r)))
  else
    let r1 := deriveRand r (hash (sigSig s)) in
    (  {| cfg := cfg r1;
          nextRBCmteHistory := nextRBCmteHistory r1;
          nextNtCmteHistory := nextNtCmteHistory r1;
          nextBPCmteHistory := nextBPCmteHistory r1;
          groups := groups r1;
          rbRand := rbRand r1;
          ntRand := ntRand r1;
          bpRand := bpRand r1;
          curRoundShares := ∅;
          sigHistory := sigHistory r1 ++ [s] |}, None).

(** The [for i := range g.Members] loop of [Rank]: the first index from
    [i] on that holds [addr], and [-1] when the loop runs to its end. *)
Fixpoint findMember (addr : Addr) (ms : list Addr) (i : Z) : Z :=
  match ms with
  | [] => -1
  | m :: ms' => if decide (addr = m) then i else findMember addr ms' (i + 1)
  end.

Definition Rank (r : RandomBeacon) (addr : Addr) : outcome (Z * option error) :=
  match index (nextBPCmteHistory r) (len (nextBPCmteHistory r) - 1) with
  | None => Panics "index out of range"
  | Some bp =>
    match index (groups r) bp with
    | None => Panics "index out of range"
    | Some g =>
      let idx := findMember addr (Members g) 0 in
      if decide (idx < 0) then Returns (0, Some ErrAddrNotInCommittee)
      else
        let perm := Perm (bpRand r) (idx + 1) (len (Members g)) in
        match index perm idx with
        | None => Panics "index out of range"
        | Some x => Returns (x, None)
        end
    end
  end.

Definition Committees (r : RandomBeacon) : outcome (Z * Z * Z) :=
  match index (nextRBCmteHistory r) (len (nextRBCmteHistory r) - 1),
        index (nextBPCmteHistory r) (len (nextBPCmteHistory r) - 1),
        index (nextNtCmteHistory r) (len (nextNtCmteHistory r) - 1) with
  | Some rb, Some bp, Some nt => Returns (rb, bp, nt)
  | _, _, _ => Panics "index out of range"
  end.

(** ** Executions

    The methods of a beacon, and the state each leaves behind.  A call
    that panics after a mutation leaves the mutated state. *)
Inductive op : Type :=
  | OpGetShare (h : Hash)
  | OpRecvRandBeaconSigShare (s : RandBeaconSigShare) (groupID : Z)
  | OpRecvRandBeaconSig (s : RandBeaconSig)
  | OpRound
  | OpRank (addr : Addr)
  | OpCommittees
  | OpHistory.

Definition step (r : RandomBeacon) (o : op) : RandomBeacon :=
  match o with
  | OpRecvRandBeaconSigShare s groupID => fst (RecvRandBeaconSigShare r s groupID)
  | OpRecvRandBeaconSig s => fst (RecvRandBeaconSig r s)
  | OpGetShare _ | OpRound | OpRank _ | OpCommittees | OpHistory => r
  end.

Definition run (r : RandomBeacon) (ops : list op) : RandomBeacon :=
  foldl step r ops.

(** The states a beacon built by [NewRandomBeacon] can be in. *)
Definition reachable (seed : Rand) (gs : list Group) (c : Config)
  (r : RandomBeacon) : Prop :=
  exists ops : list op, r = run (NewRandomBeacon seed gs c) ops.

(** Both checks of [RecvRandBeaconSigShare] pass. *)
Definition admits (r : RandomBeacon) (s : RandBeaconSigShare) : Prop :=
  shareRound s = Round r /\
  exists prev : RandBeaconSig,
    index (sigHistory r) (shareRound s - 1) = Some prev /\
    shareLastSigHash s = hash (sigSig prev).

(** The signatures of [ops] that [RecvRandBeaconSig] accepts when [ops]
    runs from [r]. *)
Fixpoint acceptedSigs (r : RandomBeacon) (ops : list op) : Z :=
  match ops with
  | [] => 0
  | o :: rest =>
    (match o with
     | OpRecvRandBeaconSig s => if decide (sigRound s = Round r) then 1 else 0
     | _ => 0
     end) + acceptedSigs (step r o) rest
  end.

(** ** The committee histories as functions of the signature history *)

(** The stream obtained from [r0] by deriving with the hash of each
    signature in turn. *)
Definition streamAfter (r0 : Rand) (sigs : list RandBeaconSig) : Rand :=
  foldl (fun r s => Derive r (hash_bytes (hash (sigSig s)))) r0 sigs.

(** The committee chosen after each prefix of [sigs], the empty one
    included. *)
Definition cmteHistoryOf (r0 : Rand) (n : Z) (sigs : list RandBeaconSig)
  : list Z :=
  (fun k => Mod (streamAfter r0 (take k sigs)) n) <$> seq 0 (S (length sigs)).

Definition rbSeed (seed : Rand) : Rand :=
  Derive seed (bytes "random beacon committee rand seed").
Definition bpSeed (seed : Rand) : Rand :=
  Derive seed (bytes "block proposer committee rand seed").
Definition ntSeed (seed : Rand) : Rand :=
  Derive seed (bytes "notarization committee rand seed").

(** What holds of every state of a beacon built from [seed] and [gs]:
    the group list is [gs], the history starts with the stand-in
    signature, and the streams and committee histories are the ones the
    signatures after the stand-in determine. *)
Record wellFormed (seed : Rand) (gs : list Group) (r : RandomBeacon)
  : Prop := {
  wf_groups : groups r = gs;
  wf_sigHistory : sigHistory r <> [];
  wf_rbRand : rbRand r = streamAfter (rbSeed seed) (drop 1 (sigHistory r));
  wf_ntRand : ntRand r = streamAfter (ntSeed seed) (drop 1 (sigHistory r));
  wf_bpRand : bpRand r = streamAfter (bpSeed seed) (drop 1 (sigHistory r));
  wf_rbHistory :
    nextRBCmteHistory r
    = cmteHistoryOf (rbSeed seed) (len gs) (drop 1 (sigHistory r));
  wf_ntHistory :
    nextNtCmteHistory r
    = cmteHistoryOf (ntSeed seed) (len gs) (drop 1 (sigHistory r));
  wf_bpHistory :
    nextBPCmteHistory r
    = cmteHistoryOf (bpSeed seed) (len gs) (drop 1 (sigHistory r));
}.

End Beacon.

(** ** The gossip layer *)

(** The kinds of item, in the order of the [iota] declaration. *)
Inductive ItemType : Type :=
  | TxnItem
  | SysTxnItem
  | BlockItem
  | BlockProposalItem
  | NtShareItem
  | RandBeaconShareItem
  | RandBeaconItem.

#[global] Instance ItemType_eq_dec : EqDecision ItemType.
Proof. solve_decision. Defined.

Section Networking.
Context `{Primitives} `{!Scheme}.

(** [ItemID]: fields [T], [ItemRound], [Ref], [Hash]. *)
Record ItemID : Type := {
  idT : ItemType;
  ItemRound : Z;
  Ref : Hash;
  idHash : Hash;
}.

(** The chain and the transport are collaborators of the gossip layer
    that it only calls: [Chain] with its queries, the [Peer] handles that
    [Network.Connect] hands out.  [chainBlock], [chainBlockProposal] and
    [chainNtShare] give [None] where the Go query answers [ok = false]. *)
Class Collaborators : Type := {
  Block : Type;
  BlockProposal : Type;
  NtShare : Type;
  Chain : Type;
  chainRound : Chain -> Z;
  chainBlock : Chain -> Hash -> option Block;
  chainBlockProposal : Chain -> Hash -> option BlockProposal;
  chainNtShare : Chain -> Hash -> option NtShare;
  chainNeedNotarize : Chain -> Hash -> bool;
  chainRandomBeacon : Chain -> RandomBeacon;
  Peer : Type;
  NetError : Type;
  Connect : string -> NetError + Peer;
}.
Context `{Collaborators}.

(** What [log.Printf] and [log.Println] are handed. *)
Inductive logmsg : Type :=
  | LogError (e : NetError)
  | LogWrongRound (T : ItemType) (got handling : Z)
  | LogTooHighRound (requester : string) (got cur : Z).

(** The calls the gossip layer makes on a peer, and its log lines, in
    the order it makes them.  The error a peer call returns is dropped by
    the code. *)
Inductive event : Type :=
  | GetData (p : Peer) (requester : string) (items : list ItemID)
  | SendBlock (p : Peer) (b : Block)
  | SendBlockProposal (p : Peer) (bp : BlockProposal)
  | SendNotarizationShare (p : Peer) (n : NtShare)
  | SendRandBeaconSigShare (p : Peer) (s : RandBeaconSigShare)
  | SendRandBeaconSig (p : Peer) (s : RandBeaconSig)
  | Log (m : logmsg).

(** [Networking] without its mutex, its [Network] and its validator. *)
Record Networking : Type := {
  addr : string;
  chain : Chain;
  peers : gmap string Peer;
  peerAddrs : gmap string bool;
}.

Definition findOrConnect (n : Networking) (a : string)
  : Networking * (NetError + Peer) :=
  match peers n !! a with
  | Some p => (n, inr p)
  | None =>
    match Connect a with
    | inl err => (n, inl err)
    | inr p =>
      ({| addr := addr n; chain := chain n;
          peers := <[a := p]> (peers n);
          peerAddrs := peerAddrs n |}, inr p)
    end
  end.

(** The kinds of item that [recvInventory] fetches for the current round
    only. *)
Definition roundScoped (T : ItemType) : Prop :=
  T ∈ [BlockProposalItem; NtShareItem; RandBeaconShareItem; RandBeaconItem].

(** One turn of the loop of [recvInventory]: the events of the turn, and
    whether the turn ends normally ([continue] or the end of the body) or
    panics. *)
Definition recvInventoryItem (n : Networking) (p : Peer) (round : Z)
  (id : ItemID) : list event * outcome unit :=
  match idT id with
  | TxnItem => ([], Panics "not implemented")
  | SysTxnItem => ([], Panics "not implemented")
  | BlockItem =>
    match chainBlock (chain n) (idHash id) with
    | Some _ => ([], Returns tt)
    | None => ([GetData p (addr n) [id]], Returns tt)
    end
  | BlockProposalItem =>
    if decide (ItemRound id <> round) then
      ([Log (LogWrongRound BlockProposalItem (ItemRound id) round)], Returns tt)
    else
      match chainBlockProposal (chain n) (idHash id) with
      | Some _ => ([], Returns tt)
      | None => ([GetData p (addr n) [id]], Returns tt)
      end
  | NtShareItem =>
    if decide (ItemRound id <> round) then
      ([Log (LogWrongRound NtShareItem (ItemRound id) round)], Returns tt)
    else
      match chainNtShare (chain n) (idHash id) with
      | Some _ => ([], Returns tt)
      | None =>
        if chainNeedNotarize (chain n) (Ref id) then
          ([GetData p (addr n) [id]], Returns tt)
        else ([], Returns tt)
      end
  | RandBeaconShareItem =>
    if decide (ItemRound id <> round) then
      ([Log (LogWrongRound RandBeaconShareItem (ItemRound id) round)], Returns tt)
    else
      match GetShare (chainRandomBeacon (chain n)) (idHash id) with
      | Some _ => ([], Returns tt)
      | None => ([GetData p (addr n) [id]], Returns tt)
      end
  | RandBeaconItem =>
    if decide (ItemRound id <> round) then
      ([Log (LogWrongRound RandBeaconItem (ItemRound id) round)], Returns tt)
    else ([GetData p (addr n) [id]], Returns tt)
  end.

(** A [for _, id := range ids] loop whose body is [body]: a panic ends
    it. *)
Fixpoint rangeOver (body : ItemID -> list event * outcome unit)
  (ids : list ItemID) : list event * outcome unit :=
  match ids with
  | [] => ([], Returns tt)
  | id :: rest =>
    match body id with
    | (evs, Panics msg) => (evs, Panics msg)
    | (evs, Returns _) =>
      let '(evs', o) := rangeOver body rest in (evs ++ evs', o)
    end
  end.

Definition recvInventory (n : Networking) (sender : string)
  (ids : list ItemID) : Networking * (list event * outcome unit) :=
  match findOrConnect n sender with
  | (n', inl err) => (n', ([Log (LogError err)], Returns tt))
  | (n', inr p) =>
    let round := chainRound (chain n') in
    (n', rangeOver (recvInventoryItem n' p round) ids)
  end.

(** One turn of the loop of [serveData]. *)
Definition serveDataItem (n : Networking) (p : Peer) (requester : string)
  (id : ItemID) : list event * outcome unit :=
  match idT id with
  | TxnItem => ([], Panics "not implemented")
  | SysTxnItem => ([], Panics "not implemented")
  | BlockItem =>
    match chainBlock (chain n) (idHash id) with
    | None => ([], Returns tt)
    | Some b => ([SendBlock p b], Returns tt)
    end
  | BlockProposalItem =>
    match chainBlockProposal (chain n) (idHash id) with
    | None => ([], Returns tt)
    | Some bp => ([SendBlockProposal p bp], Returns tt)
    end
  | NtShareItem =>
    match chainNtShare (chain n) (idHash id) with
    | None => ([], Returns tt)
    | Some nts => ([SendNotarizationShare p nts], Returns tt)
    end
  | RandBeaconShareItem =>
    match GetShare (chainRandomBeacon (chain n)) (idHash id) with
    | None => ([], Returns tt)
    | Some share => ([SendRandBeaconSigShare p share], Returns tt)
    end
  | RandBeaconItem =>
    let history := History (chainRandomBeacon (chain n)) in
    if decide (len history <= ItemRound id) then
      ([Log (LogTooHighRound requester (ItemRound id) (len history))],
       Returns tt)
    else
      match index history (ItemRound id) with
      | None => ([], Panics "index out of range")
      | Some s => ([SendRandBeaconSig p s], Returns tt)
      end
  end.

Definition serveData (n : Networking) (requester : string)
  (ids : list ItemID) : Networking * (list event * outcome unit) :=
  match findOrConnect n requester with
  | (n', inl err) => (n', ([Log (LogError err)], Returns tt))
  | (n', inr p) => (n', rangeOver (serveDataItem n' p requester) ids)
  end.

End Networking.

(** ** Receiving beacon artifacts, broadcasting and syncing *)

(** [s[start:]] on a slice: a run-time panic outside
    [0 <= start <= len(s)]. *)
Definition sliceFrom {A : Type} (l : list A) (start : Z) : option (list A) :=
  if decide (0 <= start <= len l) then Some (drop (Z.to_nat start) l)
  else None.

Section Gossip.
Context `{Primitives} `{!Scheme} `{!Collaborators}.

(** The validator of the node and the hash of a signature are further
    collaborators: [ValidateRandBeaconSigShare] answers with a group index
    and a verdict.  [FinalizedChain] is the chain's list of finalized
    blocks. *)
Class Validator : Type := {
  sigHash : RandBeaconSig -> Hash;
  ValidateRandBeaconSig : RandBeaconSig -> bool;
  ValidateRandBeaconSigShare : RandBeaconSigShare -> Z * bool;
  FinalizedChain : Chain -> list Block;
}.
Context `{Validator}.

(** What the receiving functions log, and the goroutines they start with
    [go]: a started goroutine is recorded, not run. *)
Inductive action : Type :=
  | LogSigInvalid (round : Z)
  | LogShareInvalid (owner : Addr) (round : Z)
  | LogBeaconError (e : error)
  | GoBroadcastItem (item : ItemID)
  | GoRecvRandBeaconSig (sig : RandBeaconSig).

(** [recvRandBeaconSig], on the beacon of the node's chain. *)
Definition recvRandBeaconSig (b : RandomBeacon) (r : RandBeaconSig)
  : RandomBeacon * list action :=
  if negb (ValidateRandBeaconSig r) then (b, [LogSigInvalid (sigRound r)])
  else
    match RecvRandBeaconSig b r with
    | (b', Some err) => (b', [LogBeaconError err])
    | (b', None) =>
      (b', [GoBroadcastItem {| idT := RandBeaconItem; ItemRound := sigRound r;
                               Ref := zero_hash; idHash := sigHash r |}])
    end.

(** [recvRandBeaconSigShare], on the beacon of the node's chain. *)
Definition recvRandBeaconSigShare (b : RandomBeacon) (r : RandBeaconSigShare)
  : RandomBeacon * (list action * outcome unit) :=
  let '(groupID, valid) := ValidateRandBeaconSigShare r in
  if negb valid then
    (b, ([LogShareInvalid (shareOwner r) (shareRound r)], Returns tt))
  else
    match RecvRandBeaconSigShare b r groupID with
    | (b', Panics msg) => (b', ([], Panics msg))
    | (b', Returns (_, Some err)) => (b', ([LogBeaconError err], Returns tt))
    | (b', Returns (Some sig, None)) =>
      (b', ([GoRecvRandBeaconSig sig], Returns tt))
    | (b', Returns (None, None)) =>
      (b', ([GoBroadcastItem {| idT := RandBeaconShareItem;
                                ItemRound := shareRound r;
                                Ref := zero_hash;
                                idHash := shareHash r |}], Returns tt))
    end.

(** A call of [Inventory] on a peer. *)
Record inventoryCall : Type := {
  callee : Peer;
  callSender : string;
  callItems : list ItemID;
}.

(** [BroadcastItem]: one goroutine per entry of [peers], each calling
    [Inventory] with the node's address and the one item.  Go ranges over
    the map in an order of its own; the list is in the order of the
    keys. *)
Definition BroadcastItem (n : Networking) (item : ItemID)
  : list inventoryCall :=
  (fun kv => {| callee := snd kv; callSender := addr n; callItems := [item] |})
    <$> map_to_list (peers n).

(** [NewNetworking]. *)
Definition NewNetworking (a : string) (c : Chain) : Networking :=
  {| addr := a; chain := c; peers := ∅; peerAddrs := ∅ |}.

(** [getSyncData], on the chain of the node. *)
Definition getSyncData (c : Chain) (start : Z)
  : outcome (list RandBeaconSig * list Block) :=
  let history := History (chainRandomBeacon c) in
  if decide (len history <= start) then Returns ([], [])
  else
    let blocks := FinalizedChain c in
    match (if decide (len blocks <= start) then Some []
           else sliceFrom blocks start) with
    | None => Panics "slice bounds out of range"
    | Some blocks' =>
      match sliceFrom history start with
      | None => Panics "slice bounds out of range"
      | Some sigs => Returns (sigs, blocks')
      end
    end.

(** The loop of [Start] over the signatures that the seed's [Sync]
    returned: the first error ends it. *)
Fixpoint syncRandBeacon (b : RandomBeacon) (rb : list RandBeaconSig)
  : RandomBeacon * option error :=
  match rb with
  | [] => (b, None)
  | r :: rest =>
    match RecvRandBeaconSig b r with
    | (b', Some err) => (b', Some err)
    | (b', None) => syncRandBeacon b' rest
    end
  end.

(** The items of an announcement that [recvInventory] asks for, at round
    [round] of the chain. *)
Definition wanted (n : Networking) (round : Z) (id : ItemID) : Prop :=
  match idT id with
  | TxnItem | SysTxnItem => False
  | BlockItem => chainBlock (chain n) (idHash id) = None
  | BlockProposalItem =>
      ItemRound id = round /\ chainBlockProposal (chain n) (idHash id) = None
  | NtShareItem =>
      ItemRound id = round /\ chainNtShare (chain n) (idHash id) = None /\
      chainNeedNotarize (chain n) (Ref id) = true
  | RandBeaconShareItem =>
      ItemRound id = round /\
      GetShare (chainRandomBeacon (chain n)) (idHash id) = None
  | RandBeaconItem => ItemRound id = round
  end.

(** The [GetData] calls among the events of a run. *)
Definition requests (evs : list event) : list (Peer * string * list ItemID) :=
  omap (fun ev => match ev with
                  | GetData p rq items => Some (p, rq, items)
                  | _ => None
                  end) evs.

(** The items on which a turn of [recvInventory] panics, and those on
    which a turn of [serveData] does. *)
Definition unimplemented (id : ItemID) : Prop :=
  idT id = TxnItem \/ idT id = SysTxnItem.

Definition unservable (id : ItemID) : Prop :=
  unimplemented id \/ (idT id = RandBeaconItem /\ ItemRound id < 0).

End Gossip.

(** ** Invariants of the beacon, stated *)

Section BeaconInvariants.
Context `{Primitives} `{!Scheme}.

(** Every share in flight is of the current round, carries the hash of
    the latest signature and is stored under its own hash. *)
Definition sharesCurrent (r : RandomBeacon) : Prop :=
  forall (h : Hash) (s : RandBeaconSigShare),
    GetShare r h = Some s ->
    shareHash s = h /\ shareRound s = Round r /\
    exists last : RandBeaconSig,
      index (sigHistory r) (Round r - 1) = Some last /\
      shareLastSigHash s = hash (sigSig last).

(** The signature at a position after the stand-in is of the round that
    the position numbers. *)
Definition roundsNumbered (r : RandomBeacon) : Prop :=
  forall (i : Z) (s : RandBeaconSig),
    1 <= i -> index (sigHistory r) i = Some s -> sigRound s = i.

(** The signatures of [ops] that [RecvRandBeaconSig] accepts when [ops]
    runs from [r], in their order. *)
Fixpoint acceptedList (r : RandomBeacon) (ops : list op)
  : list RandBeaconSig :=
  match ops with
  | [] => []
  | o :: rest =>
    (match o with
     | OpRecvRandBeaconSig s => if decide (sigRound s = Round r) then [s] else []
     | _ => []
     end) ++ acceptedList (step r o) rest
  end.

End BeaconInvariants.

(** ** The round advance, write by write *)

Section Interleaving.
Context `{Primitives} `{!Scheme}.

Definition set_rbRand (v : Rand) (r : RandomBeacon) : RandomBeacon :=
  {| cfg := cfg r;
     nextRBCmteHistory := nextRBCmteHistory r;
     nextNtCmteHistory := nextNtCmteHistory r;
     nextBPCmteHistory := nextBPCmteHistory r;
     groups := groups r;
     rbRand := v;
     ntRand := ntRand r;
     bpRand := bpRand r;
     curRoundShares := curRoundShares r;
     sigHistory := sigHistory r |}.

Definition set_ntRand (v : Rand) (r : RandomBeacon) : RandomBeacon :=
  {| cfg := cfg r;
     nextRBCmteHistory := nextRBCmteHistory r;
     nextNtCmteHistory := nextNtCmteHistory r;
     nextBPCmteHistory := nextBPCmteHistory r;
     groups := groups r;
     rbRand := rbRand r;
     ntRand := v;
     bpRand := bpRand r;
     curRoundShares := curRoundShares r;
     sigHistory := sigHistory r |}.

Definition set_bpRand (v : Rand) (r : RandomBeacon) : RandomBeacon :=
  {| cfg := cfg r;
     nextRBCmteHistory := nextRBCmteHistory r;
     nextNtCmteHistory := nextNtCmteHistory r;
     nextBPCmteHistory := nextBPCmteHistory r;
     groups := groups r;
     rbRand := rbRand r;
     ntRand := ntRand r;
     bpRand := v;
     curRoundShares := curRoundShares r;
     sigHistory := sigHistory r |}.

Definition set_nextRBCmteHistory (v : list Z) (r : RandomBeacon)
  : RandomBeacon :=
  {| cfg := cfg r;
     nextRBCmteHistory := v;
     nextNtCmteHistory := nextNtCmteHistory r;
     nextBPCmteHistory := nextBPCmteHistory r;
     groups := groups r;
     rbRand := rbRand r;
     ntRand := ntRand r;
     bpRand := bpRand r;
     curRoundShares := curRoundShares r;
     sigHistory := sigHistory r |}.

Definition set_nextNtCmteHistory (v : list Z) (r : RandomBeacon)
  : RandomBeacon :=
  {| cfg := cfg r;
     nextRBCmteHistory := nextRBCmteHistory r;
     nextNtCmteHistory := v;
     nextBPCmteHistory := nextBPCmteHistory r;
     groups := groups r;
     rbRand := rbRand r;
     ntRand := ntRand r;
     bpRand := bpRand r;
     curRoundShares := curRoundShares r;
     sigHistory := sigHistory r |}.

Definition set_nextBPCmteHistory (v : list Z) (r : RandomBeacon)
  : RandomBeacon :=
  {| cfg := cfg r;
     nextRBCmteHistory := nextRBCmteHistory r;
     nextNtCmteHistory := nextNtCmteHistory r;
     nextBPCmteHistory := v;
     groups := groups r;
     rbRand := rbRand r;
     ntRand := ntRand r;
     bpRand := bpRand r;
     curRoundShares := curRoundShares r;
     sigHistory := sigHistory r |}.

Definition set_sigHistory (v : list RandBeaconSig) (r : RandomBeacon)
  : RandomBeacon :=
  {| cfg := cfg r;
     nextRBCmteHistory := nextRBCmteHistory r;
     nextNtCmteHistory := nextNtCmteHistory r;
     nextBPCmteHistory := nextBPCmteHistory r;
     groups := groups r;
     rbRand := rbRand r;
     ntRand := ntRand r;
     bpRand := bpRand r;
     curRoundShares := curRoundShares r;
     sigHistory := v |}.

(** The assignments that [RecvRandBeaconSig] makes to the beacon once it
    has accepted [s], one per statement and in the order of the
    statements: the six of [deriveRand(hash(s.Sig))], then the new share
    map and the longer history. *)
Definition advanceWrites (s : RandBeaconSig)
  : list (RandomBeacon -> RandomBeacon) :=
  let h := hash_bytes (hash (sigSig s)) in
  [ (fun r => set_rbRand (Derive (rbRand r) h) r);
    (fun r => set_nextRBCmteHistory
                (nextRBCmteHistory r ++ [Mod (rbRand r) (len (groups r))]) r);
    (fun r => set_ntRand (Derive (ntRand r) h) r);
    (fun r => set_nextNtCmteHistory
                (nextNtCmteHistory r ++ [Mod (ntRand r) (len (groups r))]) r);
    (fun r => set_bpRand (Derive (bpRand r) h) r);
    (fun r => set_nextBPCmteHistory
                (nextBPCmteHistory r ++ [Mod (bpRand r) (len (groups r))]) r);
    (fun r => set_curRoundShares ∅ r);
    (fun r => set_sigHistory (sigHistory r ++ [s]) r) ].

(** The beacon as it stands when the first [k] of these assignments are
    made: what a reader that does not take the lock of the beacon finds
    if it runs at that moment. *)
Definition midAdvance (r : RandomBeacon) (s : RandBeaconSig) (k : nat)
  : RandomBeacon :=
  foldl (fun st write => write st) r (take k (advanceWrites s)).

End Interleaving.

(** ** A shuffle for [Rand.Perm] *)

(** [m[i], m[j] = m[j], m[i]] *)
Definition swap {A : Type} (m : list A) (i j : nat) : list A :=
  match m !! i, m !! j with
  | Some x, Some y => <[i := y]> (<[j := x]> m)
  | _, _ => m
  end.

(** Modelled from the spec: [Rand.Perm] is not among the embedded files.
    [k] steps of a Fisher-Yates shuffle of [m] from position [i] on: each
    step draws [j] in [i, n) from the stream by [Mod], exchanges the
    positions [i] and [j], and moves the stream on. *)
Fixpoint shuffleFrom {R : Type} (mod_ : R -> Z -> Z) (next : R -> R)
  (n : Z) (k i : nat) (r : R) (m : list Z) : list Z :=
  match k with
  | O => m
  | S k' =>
    let j := Nat.add i (Z.to_nat (mod_ r (n - Z.of_nat i))) in
    shuffleFrom mod_ next n k' (S i) (next r) (swap m i j)
  end.

Definition fisherYates {R : Type} (mod_ : R -> Z -> Z) (next : R -> R)
  (r : R) (k n : Z) : list Z :=
  shuffleFrom mod_ next n (Z.to_nat k) 0 r (seqZ 0 n).

(** ** An instance to run the embedding on

    Small stand-ins for the primitives: a 32-bit FNV-1a hash, a stream
    that is its own digest, and a signature scheme that only
    concatenates.  They serve to evaluate the embedded code on concrete
    inputs; nothing cryptographic is claimed of them. *)
Module Sim.

Definition byteOf (n : N) : byte :=
  default x00 (Byte.of_N (n mod 256)%N).

(** the four bytes of a 32-bit word, most significant first *)
Definition word32 (n : N) : list byte :=
  [byteOf (N.shiftr n 24); byteOf (N.shiftr n 16); byteOf (N.shiftr n 8);
   byteOf n].

Definition fnv1a (bs : list byte) : N :=
  foldl (fun acc b => (N.lxor acc (Byte.to_N b) * 16777619) mod 4294967296)%N
        2166136261%N bs.

Definition derive (r : N) (bs : list byte) : N := fnv1a (word32 r ++ bs).

Definition modulo (r : N) (n : Z) : Z := Z.of_N r mod n.

Definition perm (r : N) (k n : Z) : list Z :=
  fisherYates modulo (fun s => derive s (word32 s)) r k n.

#[global] Instance primitives : Primitives := {|
  Hash := N;
  zero_hash := 0%N;
  hash := fnv1a;
  hash_bytes := word32;
  Addr := N;
  PublicKey := N;
  Signature := list byte;
  Rand := N;
  Derive := derive;
  Mod := modulo;
  Perm := perm;
|}.

Definition encodeSig (s : RandBeaconSig) (withSig : bool) : list byte :=
  word32 (Z.to_N (sigRound s)) ++ word32 (sigLastRandVal s)
    ++ (if withSig then sigSig s else []).

Definition hashShare (s : RandBeaconSigShare) : N :=
  fnv1a (word32 (shareOwner s) ++ word32 (Z.to_N (shareRound s))
           ++ word32 (shareLastSigHash s) ++ shareSig s).

(** the shares' bytes, in the order of their keys *)
Definition recover (shares : gmap N RandBeaconSigShare) : list byte :=
  flat_map (fun kv => shareSig (snd kv)) (map_to_list shares).

(** a group whose public key is [0] verifies nothing *)
Definition verify (sig : list byte) (pk : N) (msg : list byte) : bool :=
  negb (N.eqb pk 0).

#[global] Instance scheme : Scheme := {|
  shareHash := hashShare;
  recoverRandBeaconSig := recover;
  Encode := encodeSig;
  Verify := verify;
  Serialize := fun sig => sig;
|}.

(** a chain that holds its items in maps *)
Record chainState : Type := {
  csRound : Z;
  csBlocks : gmap N N;
  csProposals : gmap N N;
  csNtShares : gmap N N;
  csNeedNotarize : N -> bool;
  csBeacon : RandomBeacon;
}.

(** peers are named by their address; the empty address is unreachable *)
#[global] Instance collaborators : Collaborators := {|
  Block := N;
  BlockProposal := N;
  NtShare := N;
  Chain := chainState;
  chainRound := csRound;
  chainBlock := fun c h => csBlocks c !! h;
  chainBlockProposal := fun c h => csProposals c !! h;
  chainNtShare := fun c h => csNtShares c !! h;
  chainNeedNotarize := csNeedNotarize;
  chainRandomBeacon := csBeacon;
  Peer := string;
  NetError := string;
  Connect := fun a => if decide (a = ""%string) then inl "unreachable"%string else inr a;
|}.

(** Three groups of three members, threshold two. *)
Definition config : Config :=
  {| BlockTime := 1; GroupSize := 3; GroupThreshold := 2 |}.

Definition groupList : list Group :=
  [ {| Members := [11; 12; 13]%N; PK := 101%N |};
    {| Members := [21; 22; 23]%N; PK := 102%N |};
    {| Members := [31; 32; 33]%N; PK := 103%N |} ].

Definition seed : Rand := 7%N.

Definition genesis : RandomBeacon := NewRandomBeacon seed groupList config.

(** the hash a share of round 1 has to carry *)
Definition h0 : Hash := fnv1a (bytes "DEX random beacon 0th signature").

Definition share1 : RandBeaconSigShare :=
  {| shareOwner := 11%N; shareRound := 1; shareLastSigHash := h0;
     shareSig := [x01] |}.

Definition share2 : RandBeaconSigShare :=
  {| shareOwner := 12%N; shareRound := 1; shareLastSigHash := h0;
     shareSig := [x02] |}.

(** the signature that the two shares recover *)
Definition sig1 : RandBeaconSig :=
  {| sigRound := 1; sigLastRandVal := h0; sigSig := [x02; x01] |}.

(** a share of a round the beacon is not in, and one bound to a
    signature that is not the preceding one *)
Definition staleShare : RandBeaconSigShare :=
  {| shareOwner := 11%N; shareRound := 2; shareLastSigHash := h0;
     shareSig := [x01] |}.

Definition unboundShare : RandBeaconSigShare :=
  {| shareOwner := 11%N; shareRound := 1; shareLastSigHash := 5%N;
     shareSig := [x01] |}.

(** a node whose chain is at round [k] and whose beacon holds [share1] *)
Definition chainAt (k : Z) : chainState :=
  {| csRound := k; csBlocks := ∅; csProposals := ∅; csNtShares := ∅;
     csNeedNotarize := fun _ => true;
     csBeacon := fst (RecvRandBeaconSigShare genesis share1 0) |}.

Definition node (k : Z) : Networking :=
  {| addr := "self"; chain := chainAt k; peers := ∅; peerAddrs := ∅ |}.

Definition shareItem (k : Z) (h : N) : ItemID :=
  {| idT := RandBeaconShareItem; ItemRound := k; Ref := 0%N; idHash := h |}.

Definition beaconItem (k : Z) : ItemID :=
  {| idT := RandBeaconItem; ItemRound := k; Ref := 0%N; idHash := 0%N |}.

(** the beacon after the first share, after the second, and after the
    round advance that the recovered signature brings *)
Definition afterShare1 : RandomBeacon :=
  fst (RecvRandBeaconSigShare genesis share1 0).

Definition afterShare2 : RandomBeacon :=
  fst (RecvRandBeaconSigShare afterShare1 share2 0).

Definition roundTwo : RandomBeacon :=
  run genesis
    [OpRecvRandBeaconSigShare share1 0;
     OpRecvRandBeaconSigShare share2 0;
     OpRecvRandBeaconSig sig1].

End Sim.

(** The instance, continued for the receiving and syncing functions. *)
Module SimGossip.
Import Sim.

(** a validator that accepts what carries signature bytes at all, and
    takes every share to be of the first group *)
#[global] Instance validator : Validator := {|
  sigHash := fun s => fnv1a (encodeSig s true);
  ValidateRandBeaconSig :=
    fun s => match sigSig s with [] => false | _ => true end;
  ValidateRandBeaconSigShare :=
    fun sh => (0, match shareSig sh with [] => false | _ => true end);
  FinalizedChain := fun c => snd <$> map_to_list (csBlocks c);
|}.

(** a third share of round 1, and a share of round 2 bound to [sig1] *)
Definition share3 : RandBeaconSigShare :=
  {| shareOwner := 13%N; shareRound := 1; shareLastSigHash := h0;
     shareSig := [x03] |}.

Definition shareOfRoundTwo : RandBeaconSigShare :=
  {| shareOwner := 21%N; shareRound := 2;
     shareLastSigHash := hash (sigSig sig1); shareSig := [x04] |}.

(** a peer that is in round 2 and has finalized two blocks, and a node
    over its chain *)
Definition peerChain : Chain :=
  {| csRound := 2; csBlocks := {[ 1%N := 10%N; 2%N := 20%N ]};
     csProposals := ∅; csNtShares := ∅;
     csNeedNotarize := fun _ => true; csBeacon := roundTwo |}.

Definition peerNode : Networking :=
  {| addr := "seed"; chain := peerChain; peers := ∅; peerAddrs := ∅ |}.

Definition txnItem : ItemID :=
  {| idT := TxnItem; ItemRound := 5; Ref := 0%N; idHash := 1%N |}.

Definition blockItem (h : N) : ItemID :=
  {| idT := BlockItem; ItemRound := 3; Ref := 0%N; idHash := h |}.

End SimGossip.

(** The instance, continued for a round advance that moves the block
    proposal committee. *)
Module SimAdvance.
Import Sim SimGossip.

(** the beacon after [share1] and [share3], and the signature that
    these two shares recover *)
Definition afterShare3 : RandomBeacon :=
  fst (RecvRandBeaconSigShare afterShare1 share3 0).

Definition sig13 : RandBeaconSig :=
  {| sigRound := 1; sigLastRandVal := h0; sigSig := [x03; x01] |}.

(** the beacon inside [RecvRandBeaconSig(sig13)], when [deriveRand] has
    assigned [bpRand] and not yet [nextBPCmteHistory] *)
Definition halfAdvanced : RandomBeacon := midAdvance afterShare3 sig13 5.

End SimAdvance.

(** * Properties *)

(** Goals over the numbers of the instance are closed by evaluation. *)
Ltac evaluate := vm_compute; first [reflexivity | discriminate].

(** An equation between values of the beacon's own types is checked by
    evaluating its two sides. *)
Ltac evaluated :=
  match goal with |- ?a = ?b => exact (@eq_refl _ b <: a = b) end.

Lemma index_Some {A : Type} (l : list A) (i : Z) (x : A) :
  index l i = Some x <-> 0 <= i /\ l !! Z.to_nat i = Some x.
Proof.
  unfold index. destruct (decide (0 <= i)); split; intros Hx.
  - split; assumption.
  - apply Hx.
  - discriminate.
  - destruct Hx as [Hi _]. contradiction.
Qed.

Lemma index_lt {A : Type} (l : list A) (i : Z) :
  0 <= i < len l -> is_Some (index l i).
Proof.
  intros [Hlo Hhi]. unfold index, len in *.
  destruct (decide (0 <= i)) as [_|Hn]; [|contradiction].
  apply lookup_lt_is_Some. lia.
Qed.

Lemma index_bounds {A : Type} (l : list A) (i : Z) (x : A) :
  index l i = Some x -> 0 <= i < len l.
Proof.
  intros Hx. apply index_Some in Hx as [Hi Hx].
  apply lookup_lt_Some in Hx. unfold len. lia.
Qed.

Lemma index_last {A : Type} (l : list A) (x : A) :
  index (l ++ [x]) (len (l ++ [x]) - 1) = Some x.
Proof.
  apply index_Some. unfold len. rewrite length_app. simpl. split; [lia|].
  replace (Z.to_nat (Z.of_nat (length l + 1) - 1)) with (length l) by lia.
  rewrite lookup_app_r by lia. by rewrite Nat.sub_diag.
Qed.

Section BeaconFacts.
Context `{Primitives} `{!Scheme}.

(** ** What a call of [RecvRandBeaconSigShare] does to the state *)

Lemma share_admitted (r : RandomBeacon) (s : RandBeaconSigShare) (groupID : Z) :
  admits r s ->
  fst (RecvRandBeaconSigShare r s groupID)
  = set_curRoundShares (<[shareHash s := s]> (curRoundShares r)) r.
Proof.
  intros (Hround & prev & Hprev & Hhash). unfold RecvRandBeaconSigShare.
  unfold Round in Hround.
  destruct (decide (round r <> shareRound s)) as [Hne|_]; [congruence|].
  rewrite Hprev. cbv zeta.
  destruct (decide (hash (sigSig prev) <> shareLastSigHash s)) as [Hne|_];
    [congruence|].
  destruct (decide (GroupThreshold (cfg r) <= _)); [|reflexivity].
  destruct (index (groups r) groupID) as [g|]; [|reflexivity].
  destruct (Verify _ _ _); reflexivity.
Qed.

Lemma share_cases (r : RandomBeacon) (s : RandBeaconSigShare) (groupID : Z) :
  (admits r s /\
   fst (RecvRandBeaconSigShare r s groupID)
   = set_curRoundShares (<[shareHash s := s]> (curRoundShares r)) r) \/
  (~ admits r s /\
   fst (RecvRandBeaconSigShare r s groupID) = r /\
   forall rbs : RandBeaconSig,
     snd (RecvRandBeaconSigShare r s groupID) <> Returns (Some rbs, None)).
Proof.
  assert (admits r s -> fst (RecvRandBeaconSigShare r s groupID)
    = set_curRoundShares (<[shareHash s := s]> (curRoundShares r)) r) as Hadm
    by apply share_admitted.
  unfold RecvRandBeaconSigShare in *.
  destruct (decide (round r <> shareRound s)) as [Hround|Hround].
  { right. split; [|split; [reflexivity|discriminate]].
    intros [He _]. unfold Round in He. congruence. }
  apply dec_stable in Hround.
  destruct (index (sigHistory r) (shareRound s - 1)) as [prev|] eqn:Hprev.
  2: { right. split; [|split; [reflexivity|discriminate]].
       intros (_ & prev & Hp & _). congruence. }
  cbv zeta in *.
  destruct (decide (hash (sigSig prev) <> shareLastSigHash s)) as [Hhash|Hhash].
  { right. split; [|split; [reflexivity|discriminate]].
    intros (_ & prev' & Hp & He). congruence. }
  apply dec_stable in Hhash. left.
  assert (admits r s) as Ha.
  { split; [by unfold Round|]. exists prev. by split. }
  split; [exact Ha|]. by apply Hadm.
Qed.

Lemma share_refused (r : RandomBeacon) (s : RandBeaconSigShare) (groupID : Z) :
  ~ admits r s -> fst (RecvRandBeaconSigShare r s groupID) = r.
Proof.
  intros Hn. destruct (share_cases r s groupID) as [[Hadm _]|(_ & Hr & _)];
    [contradiction|exact Hr].
Qed.

Lemma admits_set_shares (r : RandomBeacon) (s : RandBeaconSigShare)
  (m : gmap Hash RandBeaconSigShare) :
  admits (set_curRoundShares m r) s <-> admits r s.
Proof. reflexivity. Qed.

(** ** What a call of [RecvRandBeaconSig] does to the state *)

Lemma sig_accepted (r : RandomBeacon) (s : RandBeaconSig) :
  sigRound s = Round r ->
  RecvRandBeaconSig r s =
  ({| cfg := cfg r;
      nextRBCmteHistory := nextRBCmteHistory r ++
        [Mod (Derive (rbRand r) (hash_bytes (hash (sigSig s)))) (len (groups r))];
      nextNtCmteHistory := nextNtCmteHistory r ++
        [Mod (Derive (ntRand r) (hash_bytes (hash (sigSig s)))) (len (groups r))];
      nextBPCmteHistory := nextBPCmteHistory r ++
        [Mod (Derive (bpRand r) (hash_bytes (hash (sigSig s)))) (len (groups r))];
      groups := groups r;
      rbRand := Derive (rbRand r) (hash_bytes (hash (sigSig s)));
      ntRand := Derive (ntRand r) (hash_bytes (hash (sigSig s)));
      bpRand := Derive (bpRand r) (hash_bytes (hash (sigSig s)));
      curRoundShares := ∅;
      sigHistory := sigHistory r ++ [s] |}, None).
Proof.
  intros Hround. unfold RecvRandBeaconSig, Round in *.
  destruct (decide (round r <> sigRound s)) as [Hne|_]; [congruence|].
  reflexivity.
Qed.

Lemma sig_refused (r : RandomBeacon) (s : RandBeaconSig) :
  sigRound s <> Round r ->
  RecvRandBeaconSig r s = (r, Some (ErrSigRound (sigRound s) (Round r))).
Proof.
  intros Hround. unfold RecvRandBeaconSig, Round in *.
  destruct (decide (round r <> sigRound s)) as [_|He]; [reflexivity|].
  apply dec_stable in He. congruence.
Qed.

Lemma len_snoc {A : Type} (l : list A) (x : A) : len (l ++ [x]) = len l + 1.
Proof. unfold len. rewrite length_app. simpl. lia. Qed.

(** ** Round advance *)

(** X22: a signature [s] of the current round is accepted by
    [RecvRandBeaconSig]; the one call derives each of the three streams
    with the hash of [s.Sig], appends each stream's [Mod(len(groups))] to
    its committee history, empties [curRoundShares] and appends [s] to
    [sigHistory]; [Round()] grows by exactly one, and over a non-empty
    group list every appended committee is an index in
    [[0, len(groups))]. *)
Theorem RecvRandBeaconSig_advances `{!RandLaws}
  (r : RandomBeacon) (s : RandBeaconSig) :
  sigRound s = Round r ->
  let h := hash_bytes (hash (sigSig s)) in
  let r' := fst (RecvRandBeaconSig r s) in
  snd (RecvRandBeaconSig r s) = None /\
  (rbRand r' = Derive (rbRand r) h /\
   ntRand r' = Derive (ntRand r) h /\
   bpRand r' = Derive (bpRand r) h) /\
  (nextRBCmteHistory r' = nextRBCmteHistory r ++ [Mod (rbRand r') (len (groups r))] /\
   nextNtCmteHistory r' = nextNtCmteHistory r ++ [Mod (ntRand r') (len (groups r))] /\
   nextBPCmteHistory r' = nextBPCmteHistory r ++ [Mod (bpRand r') (len (groups r))]) /\
  curRoundShares r' = ∅ /\
  sigHistory r' = sigHistory r ++ [s] /\
  (groups r' = groups r /\ cfg r' = cfg r) /\
  Round r' = Round r + 1 /\
  (len (nextRBCmteHistory r') = len (nextRBCmteHistory r) + 1 /\
   len (nextNtCmteHistory r') = len (nextNtCmteHistory r) + 1 /\
   len (nextBPCmteHistory r') = len (nextBPCmteHistory r) + 1) /\
  (groups r <> [] ->
   forall hist : RandomBeacon -> list Z,
     hist ∈ [nextRBCmteHistory; nextNtCmteHistory; nextBPCmteHistory] ->
     exists c : Z, index (hist r') (len (hist r)) = Some c /\
                   0 <= c < len (groups r)).
Proof.
  intros Hround h r'. subst h r'. rewrite (sig_accepted r s Hround). simpl.
  repeat split; try reflexivity; try apply len_snoc.
  intros Hgs hist Hin.
  assert (0 < len (groups r)) as Hpos.
  { unfold len. destruct (groups r); [done|simpl; lia]. }
  assert (forall (l : list Z) (rnd : Rand),
    exists c, index (l ++ [Mod rnd (len (groups r))]) (len l) = Some c /\
              0 <= c < len (groups r)) as Hlast.
  { intros l rnd. exists (Mod rnd (len (groups r))). split.
    - pose proof (index_last l (Mod rnd (len (groups r)))) as Hl.
      rewrite len_snoc in Hl.
      by replace (len l + 1 - 1) with (len l) in Hl by lia.
    - by apply Mod_range. }
  repeat (apply elem_of_cons in Hin as [->|Hin]; [apply Hlast|]).
  by apply elem_of_nil in Hin.
Qed.

(** ** Share aggregation *)

Lemma set_curRoundShares_id (r : RandomBeacon) :
  set_curRoundShares (curRoundShares r) r = r.
Proof. by destruct r. Qed.

(** The outcome of [RecvRandBeaconSigShare] once both checks have
    passed. *)
Lemma share_outcome (r : RandomBeacon) (s : RandBeaconSigShare) (groupID : Z) :
  admits r s ->
  snd (RecvRandBeaconSigShare r s groupID) =
  let shares := <[shareHash s := s]> (curRoundShares r) in
  if decide (GroupThreshold (cfg r) <= Z.of_nat (size shares)) then
    match index (groups r) groupID with
    | None => Panics "index out of range"
    | Some g =>
      if Verify (recoverRandBeaconSig shares) (PK g)
           (Encode {| sigRound := shareRound s;
                      sigLastRandVal := shareLastSigHash s;
                      sigSig := [] |} false)
      then Returns (Some {| sigRound := shareRound s;
                            sigLastRandVal := shareLastSigHash s;
                            sigSig := Serialize (recoverRandBeaconSig shares) |},
                    None)
      else Panics "impossible: random beacon group signature verification failed"
    end
  else Returns (None, None).
Proof.
  intros (Hround & prev & Hprev & Hhash). unfold RecvRandBeaconSigShare.
  unfold Round in Hround.
  destruct (decide (round r <> shareRound s)) as [Hne|_]; [congruence|].
  rewrite Hprev. cbv zeta.
  destruct (decide (hash (sigSig prev) <> shareLastSigHash s)) as [Hne|_];
    [congruence|].
  destruct (decide (GroupThreshold (cfg r) <= _)); [|reflexivity].
  destruct (index (groups r) groupID) as [g|]; [|reflexivity].
  destruct (Verify _ _ _); reflexivity.
Qed.

(** C2: for a share [s] that passes both checks, the call returns
    [(nil, nil)] while the shares in flight, [s] included, stay below
    [GroupThreshold]; once they reach it, and the recovered signature
    verifies under the key of [groups[groupID]], the call returns a
    signature whose [Round] is [s.Round] and whose [LastRandVal] is
    [s.LastSigHash], the hash of the preceding signature of the
    history. *)
Theorem RecvRandBeaconSigShare_threshold
  (r : RandomBeacon) (s : RandBeaconSigShare) (groupID : Z) :
  admits r s ->
  let shares := <[shareHash s := s]> (curRoundShares r) in
  let unsigned := {| sigRound := shareRound s;
                     sigLastRandVal := shareLastSigHash s;
                     sigSig := [] |} in
  (Z.of_nat (size shares) < GroupThreshold (cfg r) ->
   snd (RecvRandBeaconSigShare r s groupID) = Returns (None, None)) /\
  (GroupThreshold (cfg r) <= Z.of_nat (size shares) ->
   forall g : Group,
     index (groups r) groupID = Some g ->
     Verify (recoverRandBeaconSig shares) (PK g) (Encode unsigned false) = true ->
     exists rbs : RandBeaconSig,
       snd (RecvRandBeaconSigShare r s groupID) = Returns (Some rbs, None) /\
       sigRound rbs = shareRound s /\
       sigLastRandVal rbs = shareLastSigHash s /\
       sigSig rbs = Serialize (recoverRandBeaconSig shares) /\
       exists prev : RandBeaconSig,
         index (sigHistory r) (sigRound rbs - 1) = Some prev /\
         sigLastRandVal rbs = hash (sigSig prev)).
Proof.
  intros Hadm shares unsigned. rewrite (share_outcome r s groupID Hadm).
  cbv zeta. fold shares. split.
  - intros Hlt. destruct (decide (GroupThreshold (cfg r) <= _)); [lia|done].
  - intros Hge g Hg Hverify.
    destruct (decide (GroupThreshold (cfg r) <= _)) as [_|]; [|lia].
    rewrite Hg. fold unsigned. rewrite Hverify.
    eexists. split; [reflexivity|]. simpl. repeat split.
    destruct Hadm as (_ & prev & Hprev & Hhash). by exists prev.
Qed.

(** C3: a share of another round, or one whose [LastSigHash] is not the
    hash of the preceding signature, is answered with an error and leaves
    the beacon as it was; a share that passes both checks is stored under
    its hash and answered without an error; the state only ever changes
    for a share that passes both checks. *)
Theorem RecvRandBeaconSigShare_rejects
  (r : RandomBeacon) (s : RandBeaconSigShare) (groupID : Z) :
  (shareRound s <> Round r ->
   RecvRandBeaconSigShare r s groupID
   = (r, Returns (None, Some (ErrShareRound (shareRound s) (Round r))))) /\
  (forall prev : RandBeaconSig,
     shareRound s = Round r ->
     index (sigHistory r) (shareRound s - 1) = Some prev ->
     shareLastSigHash s <> hash (sigSig prev) ->
     RecvRandBeaconSigShare r s groupID
     = (r, Returns (None, Some (ErrShareLastSigHash (shareLastSigHash s)
                                                    (hash (sigSig prev)))))) /\
  (admits r s ->
   curRoundShares (fst (RecvRandBeaconSigShare r s groupID))
   = <[shareHash s := s]> (curRoundShares r) /\
   forall (v : option RandBeaconSig) (e : error),
     snd (RecvRandBeaconSigShare r s groupID) <> Returns (v, Some e)) /\
  (fst (RecvRandBeaconSigShare r s groupID) <> r -> admits r s).
Proof.
  split; [|split; [|split]].
  - intros Hround. unfold RecvRandBeaconSigShare, Round in *.
    destruct (decide (round r <> shareRound s)) as [_|He]; [reflexivity|].
    apply dec_stable in He. congruence.
  - intros prev Hround Hprev Hhash. unfold RecvRandBeaconSigShare, Round in *.
    destruct (decide (round r <> shareRound s)) as [Hne|_]; [congruence|].
    rewrite Hprev. cbv zeta.
    destruct (decide (hash (sigSig prev) <> shareLastSigHash s)) as [_|He];
      [reflexivity|].
    apply dec_stable in He. congruence.
  - intros Hadm. split; [by rewrite (share_admitted r s groupID)|].
    intros v e. rewrite (share_outcome r s groupID) by assumption. cbv zeta.
    destruct (decide (GroupThreshold (cfg r) <= _)); [|discriminate].
    destruct (index (groups r) groupID); [|discriminate].
    destruct (Verify _ _ _); discriminate.
  - intros Hne. destruct (share_cases r s groupID) as [[Hadm _]|(_ & Hr & _)];
      [exact Hadm|contradiction].
Qed.

(** C9: whatever [RecvRandBeaconSigShare] answers, it leaves
    [sigHistory], the three committee histories, the three streams, the
    group list and the configuration as they were, and touches no entry of
    [curRoundShares] but the one under the hash of [s]; no share in flight
    is dropped.  When it answers with a recovered signature the shares,
    the last one included, are still in [curRoundShares], and
    [RecvRandBeaconSig] of that signature is what empties it. *)
Theorem RecvRandBeaconSigShare_frame
  (r : RandomBeacon) (s : RandBeaconSigShare) (groupID : Z) :
  let r' := fst (RecvRandBeaconSigShare r s groupID) in
  sigHistory r' = sigHistory r /\
  (nextRBCmteHistory r' = nextRBCmteHistory r /\
   nextNtCmteHistory r' = nextNtCmteHistory r /\
   nextBPCmteHistory r' = nextBPCmteHistory r) /\
  (rbRand r' = rbRand r /\ ntRand r' = ntRand r /\ bpRand r' = bpRand r) /\
  (groups r' = groups r /\ cfg r' = cfg r) /\
  r' = set_curRoundShares (curRoundShares r') r /\
  (forall h : Hash,
     h <> shareHash s -> curRoundShares r' !! h = curRoundShares r !! h) /\
  dom (curRoundShares r) ⊆ dom (curRoundShares r') /\
  (forall rbs : RandBeaconSig,
     snd (RecvRandBeaconSigShare r s groupID) = Returns (Some rbs, None) ->
     curRoundShares r' = <[shareHash s := s]> (curRoundShares r) /\
     curRoundShares r' !! shareHash s = Some s /\
     snd (RecvRandBeaconSig r' rbs) = None /\
     curRoundShares (fst (RecvRandBeaconSig r' rbs)) = ∅).
Proof.
  intros r'. subst r'.
  destruct (share_cases r s groupID) as [[Hadm Hr]|(Hn & Hr & Hnone)].
  - rewrite Hr. simpl.
    split; [reflexivity|]. do 3 (split; [by repeat split|]).
    split; [reflexivity|].
    split; [intros h Hh; by rewrite lookup_insert_ne|].
    split; [rewrite dom_insert_L; set_solver|].
    intros rbs Hret.
    rewrite (share_outcome r s groupID Hadm) in Hret. cbv zeta in Hret.
    destruct (decide (GroupThreshold (cfg r) <= _)); [|discriminate].
    destruct (index (groups r) groupID); [|discriminate].
    destruct (Verify _ _ _); [|discriminate].
    injection Hret as <-. destruct Hadm as [Hround _].
    split; [reflexivity|]. split; [apply lookup_insert_eq|].
    by rewrite sig_accepted.
  - rewrite Hr. split; [reflexivity|]. do 3 (split; [by repeat split|]).
    split; [by rewrite set_curRoundShares_id|].
    split; [reflexivity|]. split; [reflexivity|].
    intros rbs Hret. by destruct (Hnone rbs).
Qed.

(** C10: handing the same share to [RecvRandBeaconSigShare] a second
    time leaves the beacon exactly as the first call left it; and after a
    share [s] that passed both checks, any share with the hash of [s]
    lands on the entry of [s]: the keys of [curRoundShares] and their
    number, which is what is compared with [GroupThreshold], stay as they
    were, and so does everything outside [curRoundShares]. *)
Theorem RecvRandBeaconSigShare_idempotent
  (r : RandomBeacon) (s : RandBeaconSigShare) (g1 g2 : Z) :
  let r1 := fst (RecvRandBeaconSigShare r s g1) in
  fst (RecvRandBeaconSigShare r1 s g2) = r1 /\
  (admits r s ->
   forall s' : RandBeaconSigShare,
     shareHash s' = shareHash s ->
     let r2 := fst (RecvRandBeaconSigShare r1 s' g2) in
     dom (curRoundShares r2) = dom (curRoundShares r1) /\
     size (curRoundShares r2) = size (curRoundShares r1) /\
     r2 = set_curRoundShares (curRoundShares r2) r1 /\
     (s' = s -> r2 = r1)).
Proof.
  intros r1.
  assert (fst (RecvRandBeaconSigShare r1 s g2) = r1) as Hsame.
  { subst r1. destruct (share_cases r s g1) as [[Hadm Hr]|(Hn & Hr & _)].
    - rewrite Hr, share_admitted by (by apply admits_set_shares).
      unfold set_curRoundShares. simpl. by rewrite insert_insert_eq.
    - rewrite Hr. by apply share_refused. }
  split; [exact Hsame|].
  intros Hadm s' Hhash r2. subst r1 r2.
  rewrite (share_admitted r s g1 Hadm) in *.
  assert (forall A B C D : Prop, A /\ B /\ C -> D -> A /\ B /\ C /\ D) as Hsplit
    by tauto.
  apply Hsplit; [|intros ->; exact Hsame].
  destruct (share_cases (set_curRoundShares (<[shareHash s:=s]> (curRoundShares r)) r)
              s' g2) as [[_ Hr]|(_ & Hr & _)]; rewrite Hr.
  - unfold set_curRoundShares. simpl. rewrite Hhash, insert_insert_eq.
    rewrite !dom_insert_L.
    split; [reflexivity|]. split; [|reflexivity].
    rewrite !map_size_insert. by destruct (curRoundShares r !! shareHash s).
  - by rewrite set_curRoundShares_id.
Qed.

(** ** Invariants of the reachable states *)

Lemma streamAfter_snoc (r0 : Rand) (sigs : list RandBeaconSig) (s : RandBeaconSig) :
  streamAfter r0 (sigs ++ [s])
  = Derive (streamAfter r0 sigs) (hash_bytes (hash (sigSig s))).
Proof. unfold streamAfter. by rewrite foldl_app. Qed.

Lemma cmteHistoryOf_length (r0 : Rand) (n : Z) (sigs : list RandBeaconSig) :
  len (cmteHistoryOf r0 n sigs) = len sigs + 1.
Proof.
  unfold cmteHistoryOf, len. rewrite length_fmap, length_seq. lia.
Qed.

Lemma cmteHistoryOf_snoc (r0 : Rand) (n : Z) (sigs : list RandBeaconSig)
  (s : RandBeaconSig) :
  cmteHistoryOf r0 n (sigs ++ [s])
  = cmteHistoryOf r0 n sigs ++ [Mod (streamAfter r0 (sigs ++ [s])) n].
Proof.
  unfold cmteHistoryOf. rewrite length_app. simpl length.
  replace (S (length sigs + 1)) with (S (length sigs) + 1)%nat by lia.
  rewrite seq_app, fmap_app. f_equal.
  - apply list_fmap_ext. intros i k Hk.
    apply lookup_seq in Hk as [-> Hlt].
    by rewrite take_app_le by lia.
  - cbn [seq fmap list_fmap]. rewrite take_ge; [reflexivity|].
    rewrite length_app. simpl. lia.
Qed.

Lemma cmteHistoryOf_last (r0 : Rand) (n : Z) (sigs : list RandBeaconSig) :
  index (cmteHistoryOf r0 n sigs) (len (cmteHistoryOf r0 n sigs) - 1)
  = Some (Mod (streamAfter r0 sigs) n).
Proof.
  rewrite cmteHistoryOf_length. apply index_Some. split; [unfold len; lia|].
  unfold cmteHistoryOf, len. rewrite list_lookup_fmap.
  replace (Z.to_nat (Z.of_nat (length sigs) + 1 - 1)) with (length sigs) by lia.
  rewrite (proj2 (lookup_seq 0 (S (length sigs)) (length sigs) (length sigs)))
    by (split; lia).
  simpl. by rewrite take_ge.
Qed.

Lemma wellFormed_new (seed : Rand) (gs : list Group) (c : Config) :
  wellFormed seed gs (NewRandomBeacon seed gs c).
Proof. split; try reflexivity. discriminate. Qed.

Lemma wellFormed_step (seed : Rand) (gs : list Group) (r : RandomBeacon) (o : op) :
  wellFormed seed gs r -> wellFormed seed gs (step r o).
Proof.
  intros Hwf. destruct o as [h|s groupID|s| |a| |]; simpl; try exact Hwf.
  - destruct (share_cases r s groupID) as [[_ ->]|(_ & -> & _)]; [|exact Hwf].
    destruct Hwf. by split.
  - destruct (decide (sigRound s = Round r)) as [Hround|Hround].
    2: { by rewrite sig_refused. }
    rewrite sig_accepted by assumption. simpl.
    destruct Hwf as [Hgs Hne Hrb Hnt Hbp Hrbh Hnth Hbph].
    assert (drop 1 (sigHistory r ++ [s]) = drop 1 (sigHistory r) ++ [s]) as Hdrop.
    { destruct (sigHistory r); [done|reflexivity]. }
    split; simpl; rewrite ?Hdrop, ?cmteHistoryOf_snoc, ?streamAfter_snoc;
      try congruence.
    by destruct (sigHistory r).
Qed.

Lemma wellFormed_run (seed : Rand) (gs : list Group) (ops : list op) :
  forall r : RandomBeacon, wellFormed seed gs r -> wellFormed seed gs (run r ops).
Proof.
  induction ops as [|o ops IH]; intros r Hwf; [exact Hwf|].
  simpl. apply IH. by apply wellFormed_step.
Qed.

Lemma reachable_wellFormed (seed : Rand) (gs : list Group) (c : Config)
  (r : RandomBeacon) :
  reachable seed gs c r -> wellFormed seed gs r.
Proof. intros [ops ->]. apply wellFormed_run, wellFormed_new. Qed.

Lemma len_drop_1 {A : Type} (l : list A) : l <> [] -> len (drop 1 l) + 1 = len l.
Proof. destruct l; [done|]. intros _. unfold len. simpl. rewrite drop_0. lia. Qed.

(** C4, as the code has it: in every state a beacon can reach, each of
    the three committee histories is as long as [Round()], and is the list
    of committees that the seed, the number of groups and the signatures
    of [sigHistory] after the stand-in determine; two beacons built from
    the same seed and groups that hold the same [sigHistory] hold the
    same three histories. *)
Theorem committee_histories_determined
  (seed : Rand) (gs : list Group) (c : Config) (r : RandomBeacon) :
  reachable seed gs c r ->
  (len (nextRBCmteHistory r) = Round r /\
   len (nextBPCmteHistory r) = Round r /\
   len (nextNtCmteHistory r) = Round r) /\
  (nextRBCmteHistory r
   = cmteHistoryOf (rbSeed seed) (len gs) (drop 1 (sigHistory r)) /\
   nextBPCmteHistory r
   = cmteHistoryOf (bpSeed seed) (len gs) (drop 1 (sigHistory r)) /\
   nextNtCmteHistory r
   = cmteHistoryOf (ntSeed seed) (len gs) (drop 1 (sigHistory r))) /\
  (forall (c' : Config) (r' : RandomBeacon),
     reachable seed gs c' r' ->
     sigHistory r' = sigHistory r ->
     nextRBCmteHistory r' = nextRBCmteHistory r /\
     nextBPCmteHistory r' = nextBPCmteHistory r /\
     nextNtCmteHistory r' = nextNtCmteHistory r).
Proof.
  intros Hreach. apply reachable_wellFormed in Hreach as Hwf.
  destruct Hwf as [Hgs Hne Hrb Hnt Hbp Hrbh Hnth Hbph].
  split; [|split].
  - rewrite Hrbh, Hbph, Hnth, !cmteHistoryOf_length. unfold Round, round.
    by rewrite len_drop_1.
  - by repeat split.
  - intros c' r' Hreach' Hsame. apply reachable_wellFormed in Hreach' as Hwf'.
    destruct Hwf' as [_ _ _ _ _ Hrbh' Hnth' Hbph'].
    rewrite Hrbh', Hbph', Hnth', Hrbh, Hbph, Hnth, Hsame. by repeat split.
Qed.

(** ** The round counter *)

Lemma Round_step (r : RandomBeacon) (o : op) :
  Round (step r o) = Round r + acceptedSigs r [o].
Proof.
  destruct o as [h|s groupID|s| |a| |]; simpl; try lia.
  - destruct (share_cases r s groupID) as [[_ ->]|(_ & -> & _)];
      unfold Round, round; simpl; lia.
  - destruct (decide (sigRound s = Round r)) as [Hround|Hround].
    + rewrite sig_accepted by assumption. unfold Round, round. simpl.
      rewrite len_snoc. lia.
    + rewrite sig_refused by assumption. simpl. lia.
Qed.

Lemma acceptedSigs_nonneg (ops : list op) :
  forall r : RandomBeacon, 0 <= acceptedSigs r ops.
Proof.
  induction ops as [|o ops IH]; intros r; simpl; [lia|].
  specialize (IH (step r o)).
  destruct o; try lia. destruct (decide _); lia.
Qed.

Lemma Round_run (ops : list op) :
  forall r : RandomBeacon, Round (run r ops) = Round r + acceptedSigs r ops.
Proof.
  induction ops as [|o ops IH]; intros r; [simpl; lia|].
  change (run r (o :: ops)) with (run (step r o) ops).
  rewrite IH, Round_step. simpl. lia.
Qed.

(** C5: [Round()] is the length of [sigHistory]; it is 1 on a new
    beacon, whose history holds the stand-in signature alone; along any
    sequence of calls it never decreases, and it has grown by exactly the
    number of signatures that [RecvRandBeaconSig] accepted: one per
    accepted signature, nothing for a refused one, nothing for any other
    method. *)
Theorem Round_counts_signatures :
  (forall r : RandomBeacon, Round r = len (sigHistory r)) /\
  (forall (seed : Rand) (gs : list Group) (c : Config),
     Round (NewRandomBeacon seed gs c) = 1 /\
     sigHistory (NewRandomBeacon seed gs c)
     = [ {| sigRound := 0; sigLastRandVal := zero_hash;
            sigSig := bytes "DEX random beacon 0th signature" |} ]) /\
  (forall (r : RandomBeacon) (ops : list op),
     Round r <= Round (run r ops) /\
     Round (run r ops) = Round r + acceptedSigs r ops) /\
  (forall (r : RandomBeacon) (s : RandBeaconSig),
     sigRound s = Round r ->
     snd (RecvRandBeaconSig r s) = None /\
     Round (fst (RecvRandBeaconSig r s)) = Round r + 1) /\
  (forall (r : RandomBeacon) (s : RandBeaconSig),
     sigRound s <> Round r ->
     snd (RecvRandBeaconSig r s) <> None /\
     fst (RecvRandBeaconSig r s) = r) /\
  (forall (r : RandomBeacon) (o : op),
     (forall s : RandBeaconSig, o <> OpRecvRandBeaconSig s) ->
     Round (step r o) = Round r).
Proof.
  split; [reflexivity|]. split; [by split|].
  split; [|split; [|split]].
  - intros r ops. rewrite Round_run. pose proof (acceptedSigs_nonneg ops r).
    split; lia.
  - intros r s Hround. rewrite sig_accepted by assumption. split; [reflexivity|].
    unfold Round, round. simpl. apply len_snoc.
  - intros r s Hround. rewrite sig_refused by assumption. by split.
  - intros r o Hother. rewrite Round_step.
    destruct o; simpl; try lia. by destruct (Hother s).
Qed.

(** ** Ranking *)

Lemma findMember_spec (a : Addr) (ms : list Addr) :
  forall i : Z,
    0 <= i ->
    ((a ∉ ms) /\ findMember a ms i = -1) \/
    (exists k : nat,
       ms !! k = Some a /\
       (forall j : nat, (j < k)%nat -> ms !! j <> Some a) /\
       findMember a ms i = i + Z.of_nat k).
Proof.
  induction ms as [|m ms IH]; intros i Hi; simpl.
  - left. split; [apply not_elem_of_nil|reflexivity].
  - destruct (decide (a = m)) as [->|Hne].
    + right. exists 0%nat. split; [reflexivity|]. split; [lia|lia].
    + destruct (IH (i + 1)) as [[Hnot ->]|(k & Hk & Hfirst & ->)]; [lia| |].
      * left. split; [|reflexivity]. rewrite not_elem_of_cons. by split.
      * right. exists (S k). split; [exact Hk|]. split; [|lia].
        intros [|j] Hj; simpl; [congruence|]. apply Hfirst. lia.
Qed.

(** In a state a beacon can reach over a non-empty group list, the last
    entry of the proposer history names a group. *)
Lemma current_committee `{!RandLaws} (seed : Rand) (gs : list Group)
  (r : RandomBeacon) :
  wellFormed seed gs r -> gs <> [] ->
  exists (bp : Z) (g : Group),
    index (nextBPCmteHistory r) (len (nextBPCmteHistory r) - 1) = Some bp /\
    bp = Mod (bpRand r) (len gs) /\
    index (groups r) bp = Some g.
Proof.
  intros [Hgs _ _ _ Hbp _ _ Hbph] Hne.
  assert (0 < len gs) as Hpos.
  { unfold len. destruct gs; [done|simpl; lia]. }
  pose proof (Mod_range (bpRand r) (len gs) Hpos) as Hrange.
  destruct (index_lt gs (Mod (bpRand r) (len gs)) Hrange) as [g Hg].
  exists (Mod (bpRand r) (len gs)), g.
  rewrite Hbph, cmteHistoryOf_last, <- Hbp, Hgs. by repeat split.
Qed.

(** [Rank] once the committee is known. *)
Lemma Rank_in_committee (r : RandomBeacon) (bp : Z) (g : Group) (a : Addr) :
  index (nextBPCmteHistory r) (len (nextBPCmteHistory r) - 1) = Some bp ->
  index (groups r) bp = Some g ->
  Rank r a =
  let idx := findMember a (Members g) 0 in
  if decide (idx < 0) then Returns (0, Some ErrAddrNotInCommittee)
  else match index (Perm (bpRand r) (idx + 1) (len (Members g))) idx with
       | None => Panics "index out of range"
       | Some x => Returns (x, None)
       end.
Proof. intros Hbp Hg. unfold Rank. by rewrite Hbp, Hg. Qed.

Lemma Rank_member `{!RandLaws} (r : RandomBeacon) (bp : Z) (g : Group)
  (a : Addr) (k : nat) :
  index (nextBPCmteHistory r) (len (nextBPCmteHistory r) - 1) = Some bp ->
  index (groups r) bp = Some g ->
  Members g !! k = Some a ->
  (forall j : nat, (j < k)%nat -> Members g !! j <> Some a) ->
  exists x : Z,
    Perm (bpRand r) (len (Members g)) (len (Members g)) !! k = Some x /\
    Rank r a = Returns (x, None) /\
    0 <= x < len (Members g).
Proof.
  intros Hbp Hg Hk Hfirst. rewrite (Rank_in_committee r bp g a Hbp Hg). cbv zeta.
  destruct (findMember_spec a (Members g) 0) as [[Hnot _]|(k' & Hk' & Hfirst' & ->)];
    [lia| |].
  { exfalso. apply Hnot. by eapply list_elem_of_lookup_2. }
  assert (k' = k) as ->.
  { destruct (Nat.lt_trichotomy k' k) as [Hlt|[->|Hlt]]; [|reflexivity|].
    - by destruct (Hfirst k' Hlt).
    - by destruct (Hfirst' k Hlt). }
  pose proof (lookup_lt_Some _ _ _ Hk) as Hlt.
  set (n := len (Members g)).
  assert (Z.of_nat k < n) as Hkn by (unfold n, len; lia).
  destruct (decide (0 + Z.of_nat k < 0)) as [|_]; [lia|].
  assert (Perm (bpRand r) n n ≡ₚ seqZ 0 n) as Hperm
    by (apply Perm_permutation; lia).
  assert (is_Some (Perm (bpRand r) n n !! k)) as [x Hx].
  { apply lookup_lt_is_Some. rewrite Hperm, length_seqZ. lia. }
  exists x. split; [exact Hx|].
  assert (index (Perm (bpRand r) (0 + Z.of_nat k + 1) n) (0 + Z.of_nat k) = Some x)
    as ->.
  { apply index_Some. split; [lia|].
    replace (Z.to_nat (0 + Z.of_nat k)) with k by lia.
    rewrite Perm_prefix by lia. exact Hx. }
  split; [reflexivity|].
  apply list_elem_of_lookup_2 in Hx. rewrite Hperm in Hx.
  apply elem_of_seqZ in Hx. lia.
Qed.

(** C6: in a state a beacon can reach over a non-empty group list,
    [Rank(addr)] answers with an error exactly when [addr] is no member of
    the current block-proposal committee; a member is ranked with the
    entry that the shuffle of the [bp] stream holds at the member's first
    position in the committee, a value in [[0, len(Members))]; two
    addresses with the same rank are the same address; and two beacons
    built from the same seed and groups that hold the same [sigHistory]
    rank every address alike. *)
Theorem Rank_injective `{!RandLaws}
  (seed : Rand) (gs : list Group) (c : Config) (r : RandomBeacon) :
  reachable seed gs c r ->
  gs <> [] ->
  exists (bp : Z) (g : Group),
    Committees r = Returns (Mod (rbRand r) (len gs), bp, Mod (ntRand r) (len gs)) /\
    index gs bp = Some g /\
    (forall a : Addr,
       (a ∉ Members g) <->
       exists (v : Z) (e : error), Rank r a = Returns (v, Some e)) /\
    (forall (a : Addr) (k : nat),
       Members g !! k = Some a ->
       (forall j : nat, (j < k)%nat -> Members g !! j <> Some a) ->
       exists x : Z,
         Perm (bpRand r) (len (Members g)) (len (Members g)) !! k = Some x /\
         Rank r a = Returns (x, None) /\
         0 <= x < len (Members g)) /\
    (forall a : Addr,
       a ∈ Members g ->
       exists x : Z, Rank r a = Returns (x, None) /\ 0 <= x < len (Members g)) /\
    (forall (a b : Addr) (x : Z),
       Rank r a = Returns (x, None) -> Rank r b = Returns (x, None) -> a = b) /\
    (forall (c' : Config) (r' : RandomBeacon),
       reachable seed gs c' r' ->
       sigHistory r' = sigHistory r ->
       forall a : Addr, Rank r' a = Rank r a).
Proof.
  intros Hreach Hne. apply reachable_wellFormed in Hreach as Hwf.
  destruct (current_committee seed gs r Hwf Hne) as (bp & g & Hbp & Hbpv & Hg).
  exists bp, g.
  assert (forall a : Addr, a ∈ Members g ->
    exists k : nat, Members g !! k = Some a /\
      forall j : nat, (j < k)%nat -> Members g !! j <> Some a) as Hfirst.
  { intros a Ha.
    destruct (findMember_spec a (Members g) 0) as [[Hnot _]|(k & Hk & Hf & _)];
      [lia|contradiction|]. by exists k. }
  split; [|split; [|split; [|split; [|split; [|split]]]]].
  - unfold Committees. rewrite Hbp.
    destruct Hwf as [_ _ Hrb Hnt _ Hrbh Hnth _].
    by rewrite Hrbh, Hnth, !cmteHistoryOf_last, <- Hrb, <- Hnt.
  - destruct Hwf as [<- _ _ _ _ _ _ _]. exact Hg.
  - intros a. split.
    + intros Hnot. rewrite (Rank_in_committee r bp g a Hbp Hg). cbv zeta.
      destruct (findMember_spec a (Members g) 0)
        as [[_ ->]|(k & Hk & _)]; [lia| |].
      * by exists 0, ErrAddrNotInCommittee.
      * exfalso. apply Hnot. by eapply list_elem_of_lookup_2.
    + intros (v & e & Hrank) Ha.
      destruct (Hfirst a Ha) as (k & Hk & Hf).
      destruct (Rank_member r bp g a k Hbp Hg Hk Hf) as (x & _ & Hx & _).
      congruence.
  - intros a k Hk Hf. by apply (Rank_member r bp g a k).
  - intros a Ha. destruct (Hfirst a Ha) as (k & Hk & Hf).
    destruct (Rank_member r bp g a k Hbp Hg Hk Hf) as (x & _ & Hx & Hrange).
    by exists x.
  - intros a b x Hra Hrb.
    assert (forall d : Addr, Rank r d = Returns (x, None) ->
      exists k : nat, Members g !! k = Some d /\
        Perm (bpRand r) (len (Members g)) (len (Members g)) !! k = Some x)
      as Hpos.
    { intros d Hd.
      destruct (decide (d ∈ Members g)) as [Hin|Hnot].
      - destruct (Hfirst d Hin) as (k & Hk & Hf).
        destruct (Rank_member r bp g d k Hbp Hg Hk Hf) as (y & Hy & Hrank & _).
        exists k. split; [exact Hk|]. congruence.
      - exfalso. rewrite (Rank_in_committee r bp g d Hbp Hg) in Hd.
        cbv zeta in Hd.
        destruct (findMember_spec d (Members g) 0)
          as [[_ Hm]|(k & Hk & _)]; [lia| |].
        + rewrite Hm in Hd. by destruct (decide (-1 < 0)).
        + apply Hnot. by eapply list_elem_of_lookup_2. }
    destruct (Hpos a Hra) as (ka & Hka & Hxa).
    destruct (Hpos b Hrb) as (kb & Hkb & Hxb).
    assert (NoDup (Perm (bpRand r) (len (Members g)) (len (Members g)))) as Hnd.
    { rewrite Perm_permutation by (unfold len; lia). apply NoDup_seqZ. }
    pose proof (NoDup_lookup _ _ _ _ Hnd Hxa Hxb) as ->. congruence.
  - intros c' r' Hreach' Hsame a.
    apply reachable_wellFormed in Hreach' as Hwf'.
    destruct Hwf as [Hgs _ _ _ Hb _ _ Hbh], Hwf' as [Hgs' _ _ _ Hb' _ _ Hbh'].
    unfold Rank. by rewrite Hgs', Hb', Hbh', Hgs, Hb, Hbh, Hsame.
Qed.

End BeaconFacts.

Section NetworkingFacts.
Context `{Primitives} `{!Scheme} `{!Collaborators}.

(** ** Loops over item lists *)

Lemma rangeOver_event (body : ItemID -> list event * outcome unit)
  (ids : list ItemID) (ev : event) :
  ev ∈ fst (rangeOver body ids) ->
  exists id : ItemID, id ∈ ids /\ ev ∈ fst (body id).
Proof.
  induction ids as [|id ids IH]; simpl.
  - intros Hev. by apply elem_of_nil in Hev.
  - destruct (body id) as [evs [[]|msg]] eqn:Hbody.
    + destruct (rangeOver body ids) as [evs' o]. simpl in *.
      intros Hev. apply elem_of_app in Hev as [Hev|Hev].
      * exists id. rewrite Hbody. split; [apply list_elem_of_here|exact Hev].
      * destruct (IH Hev) as (id' & Hin & Hev').
        exists id'. split; [by apply list_elem_of_further|exact Hev'].
    + simpl. intros Hev. exists id. rewrite Hbody.
      split; [apply list_elem_of_here|exact Hev].
Qed.

Lemma rangeOver_app (body : ItemID -> list event * outcome unit)
  (pre post : list ItemID) :
  snd (rangeOver body pre) = Returns tt ->
  rangeOver body (pre ++ post)
  = (fst (rangeOver body pre) ++ fst (rangeOver body post),
     snd (rangeOver body post)).
Proof.
  induction pre as [|id pre IH]; simpl.
  - intros _. by destruct (rangeOver body post).
  - destruct (body id) as [evs [[]|msg]]; [|discriminate].
    destruct (rangeOver body pre) as [evs' o]. simpl in *.
    intros ->. rewrite IH by reflexivity. simpl. by rewrite app_assoc.
Qed.

Lemma rangeOver_returns (body : ItemID -> list event * outcome unit)
  (ids : list ItemID) :
  (forall id : ItemID, id ∈ ids -> snd (body id) = Returns tt) ->
  snd (rangeOver body ids) = Returns tt.
Proof.
  induction ids as [|id ids IH]; intros Hall; [reflexivity|]. simpl.
  pose proof (Hall id (list_elem_of_here _ _)) as Hid.
  destruct (body id) as [evs [[]|msg]]; [|discriminate].
  assert (snd (rangeOver body ids) = Returns tt) as Hrest.
  { apply IH. intros id' Hin. apply Hall. by apply list_elem_of_further. }
  by destruct (rangeOver body ids).
Qed.

Lemma findOrConnect_keeps (n : Networking) (a : string) :
  addr (fst (findOrConnect n a)) = addr n /\
  chain (fst (findOrConnect n a)) = chain n.
Proof.
  unfold findOrConnect. destruct (peers n !! a); [done|].
  by destruct (Connect a).
Qed.

(** ** Inventory *)

(** A turn of [recvInventory] that asks for data asks for the one item of
    the turn, passed the round gate and the beacon's share lookup. *)
Lemma recvInventoryItem_GetData (n : Networking) (p : Peer) (round : Z)
  (id : ItemID) (q : Peer) (rq : string) (items : list ItemID) :
  GetData q rq items ∈ fst (recvInventoryItem n p round id) ->
  q = p /\ rq = addr n /\ items = [id] /\
  (roundScoped (idT id) -> ItemRound id = round) /\
  (idT id = RandBeaconShareItem ->
   GetShare (chainRandomBeacon (chain n)) (idHash id) = None).
Proof.
  unfold recvInventoryItem, roundScoped.
  destruct (idT id) eqn:HT; simpl;
    repeat match goal with
    | |- context [decide ?P] => destruct (decide P) as [?|Hround]
    | |- context [match ?o with Some _ => _ | None => _ end] =>
        destruct o eqn:Hlook
    | |- context [if ?b then _ else _] => destruct b eqn:Hneed
    end; simpl; intros Hev;
    try (by apply elem_of_nil in Hev);
    apply list_elem_of_singleton in Hev; try discriminate;
    injection Hev as -> -> ->;
    (split; [reflexivity|split; [reflexivity|split; [reflexivity|split]]]);
    try discriminate; try (intros _; by apply dec_stable);
    try (intros _; reflexivity).
  intros Hin.
  repeat (apply elem_of_cons in Hin as [Hin|Hin]; [discriminate|]).
  by apply elem_of_nil in Hin.
Qed.

Lemma recvInventoryItem_share (n : Networking) (p : Peer) (round : Z)
  (id : ItemID) :
  idT id = RandBeaconShareItem ->
  recvInventoryItem n p round id =
  if decide (ItemRound id <> round) then
    ([Log (LogWrongRound RandBeaconShareItem (ItemRound id) round)], Returns tt)
  else
    match GetShare (chainRandomBeacon (chain n)) (idHash id) with
    | Some _ => ([], Returns tt)
    | None => ([GetData p (addr n) [id]], Returns tt)
    end.
Proof. intros HT. unfold recvInventoryItem. by rewrite HT. Qed.

(** C7: whatever list [recvInventory] is handed, every [GetData] it
    issues goes to the sender, for one announced item; for a block
    proposal, a notarization share, a beacon share or a beacon signature
    that item is of the round of the chain (a block is fetched whatever
    its round), and for a beacon share it is one the beacon does not hold.
    A beacon share of another round is logged and one the beacon holds is
    passed over, neither with a call; a beacon share of the current round
    that the beacon does not hold is asked for with exactly one [GetData]
    of that item, wherever it stands in a list whose earlier items the
    loop gets past. *)
Theorem recvInventory_round_gate (n : Networking) (sender : string)
  (ids : list ItemID) :
  let round := chainRound (chain n) in
  let beacon := chainRandomBeacon (chain n) in
  (forall (q : Peer) (rq : string) (items : list ItemID),
     GetData q rq items ∈ fst (snd (recvInventory n sender ids)) ->
     exists id : ItemID,
       id ∈ ids /\ items = [id] /\ rq = addr n /\
       snd (findOrConnect n sender) = inr q /\
       (roundScoped (idT id) -> ItemRound id = round) /\
       (idT id = RandBeaconShareItem -> GetShare beacon (idHash id) = None)) /\
  (forall (p : Peer) (id : ItemID),
     snd (findOrConnect n sender) = inr p ->
     idT id = RandBeaconShareItem ->
     (ItemRound id <> round ->
      snd (recvInventory n sender [id])
      = ([Log (LogWrongRound RandBeaconShareItem (ItemRound id) round)],
         Returns tt)) /\
     (ItemRound id = round ->
      GetShare beacon (idHash id) <> None ->
      snd (recvInventory n sender [id]) = ([], Returns tt)) /\
     (ItemRound id = round ->
      GetShare beacon (idHash id) = None ->
      snd (recvInventory n sender [id])
      = ([GetData p (addr n) [id]], Returns tt) /\
      forall pre post : list ItemID,
        (forall i : ItemID, i ∈ pre -> idT i <> TxnItem /\ idT i <> SysTxnItem) ->
        snd (recvInventory n sender (pre ++ id :: post))
        = (fst (snd (recvInventory n sender pre))
             ++ GetData p (addr n) [id]
             :: fst (snd (recvInventory n sender post)),
           snd (snd (recvInventory n sender post))))).
Proof.
  intros round beacon. subst round beacon.
  destruct (findOrConnect_keeps n sender) as [Haddr Hchain].
  unfold recvInventory.
  destruct (findOrConnect n sender) as [n' [err|p]] eqn:Hconn;
    simpl in Haddr, Hchain; simpl.
  - split; [|discriminate].
    intros q rq items Hev. apply elem_of_cons in Hev as [Hev|Hev];
      [discriminate|by apply elem_of_nil in Hev].
  - rewrite Hchain. split.
    + intros q rq items Hev.
      apply rangeOver_event in Hev as (id & Hin & Hev).
      apply recvInventoryItem_GetData in Hev as (-> & -> & -> & Hround & Hshare).
      rewrite Hchain in Hshare. exists id. by repeat split.
    + intros p' id [= <-] HT.
      pose proof (recvInventoryItem_share n' p (chainRound (chain n)) id HT)
        as Hitem.
      rewrite Hchain, Haddr in Hitem.
      split; [|split].
      * intros Hne. simpl. rewrite Hitem.
        by destruct (decide (ItemRound id <> chainRound (chain n))).
      * intros Hround Hknown. simpl. rewrite Hitem.
        destruct (decide (ItemRound id <> chainRound (chain n))); [done|].
        by destruct (GetShare _ _).
      * intros Hround Hunknown.
        assert (recvInventoryItem n' p (chainRound (chain n)) id
                = ([GetData p (addr n) [id]], Returns tt)) as Hone.
        { rewrite Hitem, Hunknown.
          by destruct (decide (ItemRound id <> chainRound (chain n))). }
        split; [simpl; by rewrite Hone|].
        intros pre post Hpre. rewrite rangeOver_app.
        -- simpl. rewrite Hone.
           by destruct (rangeOver (recvInventoryItem n' p (chainRound (chain n))) post).
        -- apply rangeOver_returns. intros i Hi.
           destruct (Hpre i Hi) as [HnT HnS]. unfold recvInventoryItem.
           destruct (idT i); try done;
             repeat match goal with
             | |- context [decide ?P] => destruct (decide P)
             | |- context [match ?o with Some _ => _ | None => _ end] =>
                 destruct o
             | |- context [if ?b then _ else _] => destruct b
             end; reflexivity.
Qed.

(** ** Serving data *)

(** The three ways [serveData] treats a request for a beacon signature:
    a round at or beyond the history is logged and skipped, a round
    inside it is answered with the signature of that round, and a
    negative round passes the check and fails at the indexing. *)
Lemma serveDataItem_beacon (n : Networking) (p : Peer) (requester : string)
  (id : ItemID) :
  idT id = RandBeaconItem ->
  let history := History (chainRandomBeacon (chain n)) in
  (len history <= ItemRound id ->
   serveDataItem n p requester id
   = ([Log (LogTooHighRound requester (ItemRound id) (len history))],
      Returns tt)) /\
  (0 <= ItemRound id < len history ->
   exists s : RandBeaconSig,
     index history (ItemRound id) = Some s /\
     serveDataItem n p requester id = ([SendRandBeaconSig p s], Returns tt)) /\
  (ItemRound id < 0 ->
   serveDataItem n p requester id = ([], Panics "index out of range")).
Proof.
  intros HT history. subst history. unfold serveDataItem. rewrite HT.
  split; [|split].
  - intros Hge. by destruct (decide _).
  - intros Hin. destruct (decide _) as [|_]; [lia|].
    destruct (index_lt _ _ Hin) as [s Hs]. exists s. by rewrite Hs.
  - intros Hneg. pose proof (Nat2Z.is_nonneg (length (History (chainRandomBeacon (chain n))))).
    destruct (decide _) as [Hle|_]; [unfold len in Hle; lia|].
    unfold index. by destruct (decide (0 <= ItemRound id)) as [|_]; [lia|].
Qed.

(** X21: whatever [serveData] sends is an item that the chain or the
    beacon holds under the requested hash or round; it never asks for
    data. *)
Lemma serveData_sends_held (n : Networking) (requester : string)
  (ids : list ItemID) (ev : event) :
  ev ∈ fst (snd (serveData n requester ids)) ->
  match ev with
  | SendBlock _ b =>
      exists id, id ∈ ids /\ chainBlock (chain n) (idHash id) = Some b
  | SendBlockProposal _ bp =>
      exists id, id ∈ ids /\ chainBlockProposal (chain n) (idHash id) = Some bp
  | SendNotarizationShare _ nts =>
      exists id, id ∈ ids /\ chainNtShare (chain n) (idHash id) = Some nts
  | SendRandBeaconSigShare _ share =>
      exists id, id ∈ ids /\
        GetShare (chainRandomBeacon (chain n)) (idHash id) = Some share
  | SendRandBeaconSig _ s =>
      exists id, id ∈ ids /\
        index (History (chainRandomBeacon (chain n))) (ItemRound id) = Some s
  | GetData _ _ _ => False
  | Log _ => True
  end.
Proof.
  destruct (findOrConnect_keeps n requester) as [_ Hchain].
  unfold serveData.
  destruct (findOrConnect n requester) as [n' [err|p]]; simpl in *.
  - intros Hev. apply list_elem_of_singleton in Hev as ->. exact I.
  - intros Hev. apply rangeOver_event in Hev as (id & Hin & Hev).
    revert Hev. unfold serveDataItem. rewrite Hchain.
    destruct (idT id); simpl;
      repeat match goal with
      | |- context [decide ?P] => destruct (decide P)
      | |- context [match ?o with Some _ => _ | None => _ end] =>
          destruct o eqn:Hlook
      end; simpl; intros Hev;
      try (by apply elem_of_nil in Hev);
      apply list_elem_of_singleton in Hev as ->; try exact I;
      by exists id.
Qed.

End NetworkingFacts.

(** ** The shuffle *)

Section ShuffleFacts.
Context {R : Type} (mod_ : R -> Z -> Z) (next : R -> R) (n : Z).

Lemma insert_Permutation {A : Type} (m : list A) :
  forall (i : nat) (x y : A), m !! i = Some x -> <[i := y]> m ≡ₚ y :: delete i m.
Proof.
  induction m as [|a m IH]; intros [|i] x y Hx; try discriminate.
  - reflexivity.
  - simpl in *. rewrite (IH i x y Hx). apply Permutation_swap.
Qed.

Lemma exchange_Permutation {A : Type} (m : list A) :
  forall (i j : nat) (x y : A),
    m !! i = Some x -> m !! j = Some y -> <[i := y]> (<[j := x]> m) ≡ₚ m.
Proof.
  induction m as [|a m IH]; intros [|i] [|j] x y Hx Hy; try discriminate;
    simpl in *.
  - injection Hx as ->. by injection Hy as ->.
  - injection Hx as ->. rewrite (insert_Permutation m j y x Hy).
    rewrite (delete_Permutation m j y Hy) at 2. apply Permutation_swap.
  - injection Hy as ->. rewrite (insert_Permutation m i x y Hx).
    rewrite (delete_Permutation m i x Hx) at 2. apply Permutation_swap.
  - by rewrite (IH i j x y).
Qed.

Lemma swap_Permutation {A : Type} (m : list A) (i j : nat) : swap m i j ≡ₚ m.
Proof.
  unfold swap. destruct (m !! i) as [x|] eqn:Hx; [|reflexivity].
  destruct (m !! j) as [y|] eqn:Hy; [|reflexivity].
  by apply exchange_Permutation.
Qed.

Lemma swap_lookup_below {A : Type} (m : list A) (i j p : nat) :
  (p < i)%nat -> (i <= j)%nat -> swap m i j !! p = m !! p.
Proof.
  intros Hpi Hij. unfold swap. destruct (m !! i); [|reflexivity].
  destruct (m !! j); [|reflexivity].
  rewrite !list_lookup_insert_ne by lia. reflexivity.
Qed.

Lemma shuffleFrom_Permutation (k : nat) :
  forall (i : nat) (r : R) (m : list Z), shuffleFrom mod_ next n k i r m ≡ₚ m.
Proof.
  induction k as [|k IH]; intros i r m; simpl; [reflexivity|].
  rewrite IH. apply swap_Permutation.
Qed.

(** The steps from position [i] on leave the positions below [i] alone. *)
Lemma shuffleFrom_lookup_below (k : nat) :
  forall (i : nat) (r : R) (m : list Z) (p : nat),
    (p < i)%nat -> shuffleFrom mod_ next n k i r m !! p = m !! p.
Proof.
  induction k as [|k IH]; intros i r m p Hp; simpl; [reflexivity|].
  rewrite IH by lia. apply swap_lookup_below; lia.
Qed.

(** [a + b] steps are [a] steps followed by [b] steps further on. *)
Lemma shuffleFrom_add (a b : nat) :
  forall (i : nat) (r : R) (m : list Z),
    exists r' : R,
      shuffleFrom mod_ next n (a + b) i r m
      = shuffleFrom mod_ next n b (a + i) r' (shuffleFrom mod_ next n a i r m).
Proof.
  induction a as [|a IH]; intros i r m; simpl.
  - by exists r.
  - destruct (IH (S i) (next r)
               (swap m i (i + Z.to_nat (mod_ r (n - Z.of_nat i))))) as [r' Hr'].
    exists r'. rewrite Hr'. f_equal. lia.
Qed.

Lemma fisherYates_Permutation (r : R) (k : Z) :
  fisherYates mod_ next r k n ≡ₚ seqZ 0 n.
Proof. apply shuffleFrom_Permutation. Qed.

Lemma fisherYates_prefix (r : R) (k : Z) (i : nat) :
  0 <= k <= n -> Z.of_nat i < k ->
  fisherYates mod_ next r k n !! i = fisherYates mod_ next r n n !! i.
Proof.
  intros Hk Hi. unfold fisherYates.
  replace (Z.to_nat n) with (Z.to_nat k + (Z.to_nat n - Z.to_nat k))%nat by lia.
  destruct (shuffleFrom_add (Z.to_nat k) (Z.to_nat n - Z.to_nat k) 0 r (seqZ 0 n))
    as [r' ->].
  symmetry. apply shuffleFrom_lookup_below. lia.
Qed.

End ShuffleFacts.

(** * The embedding at work on the instance *)

(** C8, where the code departs from it: a request for the beacon
    signature of round [-1] is below [len(History())], names no signature
    the node holds, and is neither answered nor skipped: the indexing
    panics and the rest of the request list is not served. *)
Theorem serveData_negative_round_panics :
  ItemRound (Sim.beaconItem (-1)) < len (History (chainRandomBeacon (chain (Sim.node 1)))) /\
  snd (serveData (Sim.node 1) "peer" [Sim.beaconItem (-1); Sim.beaconItem 0])
  = ([], Panics "index out of range") /\
  snd (serveData (Sim.node 1) "peer" [Sim.beaconItem 0])
  = ([SendRandBeaconSig "peer"%string
        {| sigRound := 0; sigLastRandVal := 0%N;
           sigSig := bytes "DEX random beacon 0th signature" |}],
     Returns tt) /\
  snd (serveData (Sim.node 1) "peer" [Sim.beaconItem 1])
  = ([Log (LogTooHighRound "peer" 1 1)], Returns tt).
Proof. repeat split. Qed.

(** The instance keeps the promises made of [Rand]. *)
#[global] Instance Sim_RandLaws : RandLaws.
Proof.
  split.
  - intros r n Hn. apply Z.mod_pos_bound, Hn.
  - intros r k n _. apply fisherYates_Permutation.
  - intros r k n i Hk Hi. by apply fisherYates_prefix.
Qed.

(** ** Scenarios

    The beacon of the instance at round 1 receives two shares of its first
    group, recovers the signature and moves on to round 2. *)

Lemma genesis_admits (s : RandBeaconSigShare) :
  shareRound s = 1 -> shareLastSigHash s = Sim.h0 -> admits Sim.genesis s.
Proof.
  intros Hround Hhash. split; [exact Hround|].
  exists {| sigRound := 0; sigLastRandVal := zero_hash;
            sigSig := bytes "DEX random beacon 0th signature" |}.
  split; [|exact Hhash]. rewrite Hround. reflexivity.
Defined.

Lemma afterShare1_admits_share2 : admits Sim.afterShare1 Sim.share2.
Proof.
  unfold Sim.afterShare1.
  rewrite (share_admitted _ _ _ (genesis_admits Sim.share1 eq_refl eq_refl)).
  apply admits_set_shares. exact (genesis_admits Sim.share2 eq_refl eq_refl).
Defined.

Lemma RecvRandBeaconSig_advances_witness :
  sigRound Sim.sig1 = Round Sim.genesis /\
  Round (fst (RecvRandBeaconSig Sim.genesis Sim.sig1)) = 2 /\
  curRoundShares (fst (RecvRandBeaconSig Sim.genesis Sim.sig1)) = ∅ /\
  sigHistory (fst (RecvRandBeaconSig Sim.genesis Sim.sig1))
  = sigHistory Sim.genesis ++ [Sim.sig1] /\
  exists c : Z,
    index (nextBPCmteHistory (fst (RecvRandBeaconSig Sim.genesis Sim.sig1)))
          (len (nextBPCmteHistory Sim.genesis))
    = Some c /\
    0 <= c < len (groups Sim.genesis).
Proof.
  assert (sigRound Sim.sig1 = Round Sim.genesis) as Hround by reflexivity.
  pose proof (RecvRandBeaconSig_advances Sim.genesis Sim.sig1 Hround) as Hthm.
  cbv zeta in Hthm.
  destruct Hthm as (_ & _ & _ & Hshares & Hsigs & _ & Hr & _ & Hrange).
  split; [exact Hround|]. split; [exact Hr|]. split; [exact Hshares|].
  split; [exact Hsigs|].
  apply (Hrange ltac:(discriminate) nextBPCmteHistory).
  apply list_elem_of_further, list_elem_of_further, list_elem_of_here.
Defined.

Lemma RecvRandBeaconSigShare_threshold_witness :
  admits Sim.genesis Sim.share1 /\
  admits Sim.afterShare1 Sim.share2 /\
  snd (RecvRandBeaconSigShare Sim.genesis Sim.share1 0) = Returns (None, None) /\
  exists rbs : RandBeaconSig,
    snd (RecvRandBeaconSigShare Sim.afterShare1 Sim.share2 0)
    = Returns (Some rbs, None) /\
    sigRound rbs = shareRound Sim.share2 /\
    sigLastRandVal rbs = shareLastSigHash Sim.share2 /\
    exists prev : RandBeaconSig,
      index (sigHistory Sim.afterShare1) (sigRound rbs - 1) = Some prev /\
      sigLastRandVal rbs = hash (sigSig prev).
Proof.
  pose proof (genesis_admits Sim.share1 eq_refl eq_refl) as Hadm1.
  split; [exact Hadm1|].
  split; [exact afterShare1_admits_share2|]. split.
  - apply (RecvRandBeaconSigShare_threshold Sim.genesis Sim.share1 0 Hadm1).
    evaluate.
  - destruct (RecvRandBeaconSigShare_threshold Sim.afterShare1 Sim.share2 0
                afterShare1_admits_share2) as [_ Hmet].
    assert (index (groups Sim.afterShare1) 0
            = Some {| Members := [11; 12; 13]%N; PK := 101%N |}) as Hgroup
      by reflexivity.
    destruct (Hmet ltac:(evaluate) _ Hgroup ltac:(evaluate))
      as (rbs & Hret & Hround & Hlast & _ & Hprev).
    exists rbs. repeat split; assumption.
Defined.

Lemma RecvRandBeaconSigShare_rejects_witness :
  shareRound Sim.staleShare <> Round Sim.genesis /\
  RecvRandBeaconSigShare Sim.genesis Sim.staleShare 0
  = (Sim.genesis,
     Returns (None, Some (ErrShareRound (shareRound Sim.staleShare)
                                        (Round Sim.genesis)))) /\
  shareLastSigHash Sim.unboundShare <> Sim.h0 /\
  fst (RecvRandBeaconSigShare Sim.genesis Sim.unboundShare 0) = Sim.genesis /\
  curRoundShares Sim.afterShare1
  = <[shareHash Sim.share1 := Sim.share1]> (curRoundShares Sim.genesis).
Proof.
  destruct (RecvRandBeaconSigShare_rejects Sim.genesis Sim.staleShare 0)
    as (Hstale & _).
  destruct (RecvRandBeaconSigShare_rejects Sim.genesis Sim.unboundShare 0)
    as (_ & Hunbound & _).
  destruct (RecvRandBeaconSigShare_rejects Sim.genesis Sim.share1 0)
    as (_ & _ & Hstored & _).
  assert (shareRound Sim.staleShare <> Round Sim.genesis) as Hround
    by evaluate.
  assert (shareLastSigHash Sim.unboundShare <> Sim.h0) as Hhash
    by evaluate.
  split; [exact Hround|]. split; [exact (Hstale Hround)|].
  split; [exact Hhash|]. split.
  - rewrite (Hunbound
      {| sigRound := 0; sigLastRandVal := zero_hash;
         sigSig := bytes "DEX random beacon 0th signature" |}
      eq_refl eq_refl Hhash).
    reflexivity.
  - exact (proj1 (Hstored (genesis_admits Sim.share1 eq_refl eq_refl))).
Defined.

Lemma roundTwo_reachable :
  reachable Sim.seed Sim.groupList Sim.config Sim.roundTwo.
Proof. eexists. reflexivity. Defined.

Lemma committee_histories_determined_witness :
  reachable Sim.seed Sim.groupList Sim.config Sim.roundTwo /\
  len (nextRBCmteHistory Sim.roundTwo) = Round Sim.roundTwo /\
  len (nextBPCmteHistory Sim.roundTwo) = Round Sim.roundTwo /\
  len (nextNtCmteHistory Sim.roundTwo) = Round Sim.roundTwo /\
  nextBPCmteHistory Sim.roundTwo
  = cmteHistoryOf (bpSeed Sim.seed) (len Sim.groupList)
      (drop 1 (sigHistory Sim.roundTwo)).
Proof.
  destruct (committee_histories_determined Sim.seed Sim.groupList Sim.config
              Sim.roundTwo roundTwo_reachable)
    as ((Hrb & Hbp & Hnt) & (_ & Hbph & _) & _).
  split; [exact roundTwo_reachable|].
  split; [exact Hrb|]. split; [exact Hbp|]. split; [exact Hnt|exact Hbph].
Defined.

(** C4 as stated fails: on the new beacon of the instance [Round()] is 1
    and each committee history holds one entry, not two. *)
Lemma committee_histories_not_one_longer :
  ~ (forall r : RandomBeacon,
       reachable Sim.seed Sim.groupList Sim.config r ->
       len (nextRBCmteHistory r) = Round r + 1 /\
       len (nextBPCmteHistory r) = Round r + 1 /\
       len (nextNtCmteHistory r) = Round r + 1).
Proof.
  intros Hall. destruct (Hall Sim.genesis) as [Hrb _].
  - by exists [].
  - discriminate Hrb.
Qed.

(** The histories of the scenario after its round advance. *)
Example histories_of_roundTwo :
  Round Sim.roundTwo = 2 /\
  nextRBCmteHistory Sim.roundTwo = [1; 0] /\
  nextBPCmteHistory Sim.roundTwo = [2; 2] /\
  nextNtCmteHistory Sim.roundTwo = [0; 2].
Proof. repeat split; evaluate. Qed.

Lemma Round_counts_signatures_witness :
  Round Sim.genesis = 1 /\
  Round Sim.roundTwo = Round Sim.genesis + acceptedSigs Sim.genesis
    [OpRecvRandBeaconSigShare Sim.share1 0;
     OpRecvRandBeaconSigShare Sim.share2 0;
     OpRecvRandBeaconSig Sim.sig1] /\
  sigRound Sim.sig1 <> Round Sim.roundTwo /\
  Round (fst (RecvRandBeaconSig Sim.roundTwo Sim.sig1)) = Round Sim.roundTwo /\
  Round (step Sim.roundTwo (OpRecvRandBeaconSigShare Sim.share1 0)) = Round Sim.roundTwo.
Proof.
  destruct Round_counts_signatures
    as (_ & Hnew & Hrun & _ & Hrefused & Hother).
  assert (sigRound Sim.sig1 <> Round Sim.roundTwo) as Hround by evaluate.
  split; [exact (proj1 (Hnew Sim.seed Sim.groupList Sim.config))|].
  split; [exact (proj2 (Hrun Sim.genesis _))|].
  split; [exact Hround|]. split.
  - by rewrite (proj2 (Hrefused Sim.roundTwo Sim.sig1 Hround)).
  - apply (Hother Sim.roundTwo (OpRecvRandBeaconSigShare Sim.share1 0)).
    discriminate.
Defined.

Lemma Rank_injective_witness :
  reachable Sim.seed Sim.groupList Sim.config Sim.roundTwo /\
  Sim.groupList <> [] /\
  (forall (a b : Addr) (x : Z),
     Rank Sim.roundTwo a = Returns (x, None) ->
     Rank Sim.roundTwo b = Returns (x, None) -> a = b) /\
  (forall a : Addr,
     Rank (run Sim.genesis [OpRecvRandBeaconSig Sim.sig1]) a = Rank Sim.roundTwo a).
Proof.
  assert (Sim.groupList <> []) as Hne by discriminate.
  destruct (Rank_injective Sim.seed Sim.groupList Sim.config Sim.roundTwo
              roundTwo_reachable Hne)
    as (bp & g & _ & _ & _ & _ & _ & Hinj & Hsame).
  split; [exact roundTwo_reachable|]. split; [exact Hne|].
  split; [exact Hinj|].
  apply (Hsame Sim.config); [eexists; reflexivity|].
  evaluated.
Defined.

(** The ranks of the scenario: at round 1 the third group proposes, and
    its members are ranked 2, 0 and 1; nobody else has a rank. *)
Example Rank_of_the_committee :
  Committees Sim.genesis = Returns (1, 2, 0) /\
  Rank Sim.genesis 31%N = Returns (2, None) /\
  Rank Sim.genesis 32%N = Returns (0, None) /\
  Rank Sim.genesis 33%N = Returns (1, None) /\
  Rank Sim.genesis 11%N = Returns (0, Some ErrAddrNotInCommittee).
Proof. repeat split. Qed.

Lemma recvInventory_round_gate_witness :
  snd (findOrConnect (Sim.node 5) "peer") = inr "peer"%string /\
  snd (recvInventory (Sim.node 5) "peer" [Sim.shareItem 4 77%N])
  = ([Log (LogWrongRound RandBeaconShareItem
             (ItemRound (Sim.shareItem 4 77%N))
             (chainRound (chain (Sim.node 5))))],
     Returns tt) /\
  snd (recvInventory (Sim.node 5) "peer" [Sim.shareItem 5 77%N])
  = ([GetData "peer"%string (addr (Sim.node 5)) [Sim.shareItem 5 77%N]],
     Returns tt) /\
  snd (recvInventory (Sim.node 5) "peer"
         [Sim.shareItem 5 (shareHash Sim.share1)])
  = ([], Returns tt).
Proof.
  assert (snd (findOrConnect (Sim.node 5) "peer") = inr "peer"%string)
    as Hconn by reflexivity.
  destruct (recvInventory_round_gate (Sim.node 5) "peer" []) as [_ Hshare].
  destruct (Hshare "peer"%string (Sim.shareItem 4 77%N) Hconn eq_refl)
    as (Hstale & _).
  destruct (Hshare "peer"%string (Sim.shareItem 5 77%N) Hconn eq_refl)
    as (_ & _ & Hnew).
  destruct (Hshare "peer"%string (Sim.shareItem 5 (shareHash Sim.share1))
              Hconn eq_refl)
    as (_ & Hknown & _).
  split; [exact Hconn|]. split; [|split].
  - apply Hstale. evaluate.
  - refine (proj1 (Hnew _ _)); [evaluate|].
    evaluated.
  - apply Hknown; [evaluate|].
    assert (GetShare (chainRandomBeacon (chain (Sim.node 5)))
              (idHash (Sim.shareItem 5 (shareHash Sim.share1)))
            = Some Sim.share1) as -> by evaluated.
    discriminate.
Defined.

Lemma RecvRandBeaconSigShare_frame_witness :
  snd (RecvRandBeaconSigShare Sim.afterShare1 Sim.share2 0)
  = Returns (Some Sim.sig1, None) /\
  sigHistory Sim.afterShare2 = sigHistory Sim.afterShare1 /\
  nextBPCmteHistory Sim.afterShare2 = nextBPCmteHistory Sim.afterShare1 /\
  bpRand Sim.afterShare2 = bpRand Sim.afterShare1 /\
  curRoundShares Sim.afterShare2 !! shareHash Sim.share1
  = curRoundShares Sim.afterShare1 !! shareHash Sim.share1 /\
  curRoundShares Sim.afterShare2 !! shareHash Sim.share2 = Some Sim.share2 /\
  curRoundShares (fst (RecvRandBeaconSig Sim.afterShare2 Sim.sig1)) = ∅.
Proof.
  assert (snd (RecvRandBeaconSigShare Sim.afterShare1 Sim.share2 0)
          = Returns (Some Sim.sig1, None)) as Hret by evaluated.
  pose proof (RecvRandBeaconSigShare_frame Sim.afterShare1 Sim.share2 0) as Hthm.
  cbv zeta in Hthm. fold Sim.afterShare2 in Hthm.
  destruct Hthm as (Hsigs & (_ & _ & Hbph) & (_ & _ & Hbp) & _ & _ & Hother
                    & _ & Hkept).
  destruct (Hkept Sim.sig1 Hret) as (_ & Hlast & _ & Hcleared).
  split; [exact Hret|]. split; [exact Hsigs|]. split; [exact Hbph|].
  split; [exact Hbp|]. split; [|split; [exact Hlast|exact Hcleared]].
  apply Hother. evaluate.
Defined.

Lemma RecvRandBeaconSigShare_idempotent_witness :
  admits Sim.genesis Sim.share1 /\
  fst (RecvRandBeaconSigShare Sim.afterShare1 Sim.share1 7) = Sim.afterShare1 /\
  size (curRoundShares (fst (RecvRandBeaconSigShare Sim.afterShare1 Sim.share1 7)))
  = size (curRoundShares Sim.afterShare1).
Proof.
  pose proof (genesis_admits Sim.share1 eq_refl eq_refl) as Hadm.
  pose proof (RecvRandBeaconSigShare_idempotent Sim.genesis Sim.share1 0 7)
    as Hthm.
  cbv zeta in Hthm. fold Sim.afterShare1 in Hthm. destruct Hthm as [Hsame Hhash].
  destruct (Hhash Hadm Sim.share1 eq_refl) as (_ & Hsize & _ & _).
  split; [exact Hadm|]. split; [exact Hsame|exact Hsize].
Defined.

(** * The round advance and a reader that takes no lock *)

Section InterleavingFacts.
Context `{Primitives} `{!Scheme}.

(** The assignments, all made, leave the state that the call leaves. *)
Lemma midAdvance_all (r : RandomBeacon) (s : RandBeaconSig) :
  sigRound s = Round r ->
  midAdvance r s 8 = fst (RecvRandBeaconSig r s).
Proof. intros Hround. by rewrite (sig_accepted r s Hround). Qed.

Lemma midAdvance_none (r : RandomBeacon) (s : RandBeaconSig) :
  midAdvance r s 0 = r.
Proof. reflexivity. Qed.

(** After the fifth assignment the stream of the block proposers is the
    derived one, and its committee history is still the old one. *)
Lemma midAdvance_bpRand (r : RandomBeacon) (s : RandBeaconSig) :
  bpRand (midAdvance r s 5)
  = Derive (bpRand r) (hash_bytes (hash (sigSig s))) /\
  nextBPCmteHistory (midAdvance r s 5) = nextBPCmteHistory r /\
  groups (midAdvance r s 5) = groups r /\
  sigHistory (midAdvance r s 5) = sigHistory r /\
  curRoundShares (midAdvance r s 5) = curRoundShares r.
Proof. repeat split. Qed.

(** Such a state is none that a sequence of calls leaves, unless the
    derivation leaves the stream as it was. *)
Lemma midAdvance_not_wellFormed (seed : Rand) (gs : list Group)
  (r : RandomBeacon) (s : RandBeaconSig) :
  wellFormed seed gs r ->
  Derive (bpRand r) (hash_bytes (hash (sigSig s))) <> bpRand r ->
  ~ wellFormed seed gs (midAdvance r s 5).
Proof.
  intros Hwf Hne Htorn. apply Hne.
  destruct (midAdvance_bpRand r s) as (<- & _ & _ & Hsigs & _).
  rewrite (wf_bpRand _ _ _ Htorn), Hsigs. symmetry. apply (wf_bpRand _ _ _ Hwf).
Qed.

End InterleavingFacts.

Lemma afterShare3_reachable :
  reachable Sim.seed Sim.groupList Sim.config SimAdvance.afterShare3.
Proof.
  exists [OpRecvRandBeaconSigShare Sim.share1 0;
          OpRecvRandBeaconSigShare SimGossip.share3 0].
  reflexivity.
Qed.

(** C1: the mutations of an accepted [RecvRandBeaconSig] are not one
    step for [Rank], the one method of the beacon that reads it without
    taking [r.mu].  On the instance the beacon holds the shares of
    members 11 and 13, and receives the signature [sig13] that these
    shares recover: a signature of the current round, accepted, whose
    assignments leave the state of the call.  A call [Rank(31)] that
    runs when [deriveRand] has assigned [bpRand] and not yet
    [nextBPCmteHistory] ranks member 31 in the committee of round 1 with
    the stream of round 2, and returns rank 1: before the advance the
    rank of 31 is 2, after it 31 is not in the committee, and the state
    that [Rank] has read is none that any sequence of calls leaves. *)
Theorem Rank_reads_half_made_advance :
  let r := SimAdvance.afterShare3 in
  let s := SimAdvance.sig13 in
  let r' := fst (RecvRandBeaconSig r s) in
  (reachable Sim.seed Sim.groupList Sim.config r /\
   snd (RecvRandBeaconSigShare Sim.afterShare1 SimGossip.share3 0)
   = Returns (Some s, None) /\
   sigRound s = Round r /\
   snd (RecvRandBeaconSig r s) = None) /\
  (midAdvance r s 0 = r /\
   midAdvance r s 8 = r' /\
   SimAdvance.halfAdvanced = midAdvance r s 5) /\
  (bpRand SimAdvance.halfAdvanced = bpRand r' /\
   bpRand SimAdvance.halfAdvanced <> bpRand r /\
   nextBPCmteHistory SimAdvance.halfAdvanced = nextBPCmteHistory r /\
   nextBPCmteHistory r = [2] /\
   nextBPCmteHistory r' = [2; 1]) /\
  (Rank r 31%N = Returns (2, None) /\
   Rank SimAdvance.halfAdvanced 31%N = Returns (1, None) /\
   Rank r' 31%N = Returns (0, Some ErrAddrNotInCommittee)) /\
  (forall c : Config,
     ~ reachable Sim.seed Sim.groupList c SimAdvance.halfAdvanced).
Proof.
  cbv zeta.
  assert (sigRound SimAdvance.sig13 = Round SimAdvance.afterShare3)
    as Hround by evaluate.
  assert (Derive (bpRand SimAdvance.afterShare3)
            (hash_bytes (hash (sigSig SimAdvance.sig13)))
          <> bpRand SimAdvance.afterShare3) as Hmoved by evaluate.
  destruct (midAdvance_bpRand SimAdvance.afterShare3 SimAdvance.sig13)
    as (Hbp & Hhist & _).
  split; [|split; [|split; [|split]]].
  - split; [exact afterShare3_reachable|]. split; [evaluated|].
    split; [exact Hround|]. by rewrite (sig_accepted _ _ Hround).
  - split; [reflexivity|]. split; [|reflexivity].
    exact (midAdvance_all _ _ Hround).
  - split; [|split; [|split; [exact Hhist|split; evaluated]]].
    + rewrite (sig_accepted _ _ Hround). exact Hbp.
    + unfold SimAdvance.halfAdvanced. rewrite Hbp. exact Hmoved.
  - split; [evaluated|]. split; evaluated.
  - intros c Hreach.
    apply (midAdvance_not_wellFormed Sim.seed Sim.groupList
             SimAdvance.afterShare3 SimAdvance.sig13).
    + exact (reachable_wellFormed _ _ _ _ afterShare3_reachable).
    + exact Hmoved.
    + exact (reachable_wellFormed _ _ _ _ Hreach).
Qed.

(** * Further properties of the beacon *)

Section BeaconMore.
Context `{Primitives} `{!Scheme}.

Lemma run_snoc (r : RandomBeacon) (ops : list op) (o : op) :
  run r (ops ++ [o]) = step (run r ops) o.
Proof. unfold run. by rewrite foldl_app. Qed.

(** Induction over the states a beacon can reach. *)
Lemma reachable_induction (seed : Rand) (gs : list Group) (c : Config)
  (P : RandomBeacon -> Prop) :
  P (NewRandomBeacon seed gs c) ->
  (forall (r : RandomBeacon) (o : op),
     reachable seed gs c r -> P r -> P (step r o)) ->
  forall r : RandomBeacon, reachable seed gs c r -> P r.
Proof.
  intros Hnew Hstep r [ops ->].
  induction ops as [|o ops IH] using rev_ind; [exact Hnew|].
  rewrite run_snoc. apply Hstep; [by exists ops|exact IH].
Qed.

Lemma index_app_l {A : Type} (l k : list A) (i : Z) (x : A) :
  index l i = Some x -> index (l ++ k) i = Some x.
Proof.
  intros Hx. apply index_Some in Hx as [Hi Hx]. apply index_Some.
  split; [exact Hi|]. by apply lookup_app_l_Some.
Qed.

Lemma index_snoc {A : Type} (l : list A) (y : A) (i : Z) (x : A) :
  index (l ++ [y]) i = Some x ->
  index l i = Some x \/ (i = len l /\ x = y).
Proof.
  intros Hx. apply index_Some in Hx as [Hi Hx].
  apply lookup_app_Some in Hx as [Hx|[Hge Hx]].
  - left. by apply index_Some.
  - right. apply list_lookup_singleton_Some in Hx as [Hz ->].
    split; [unfold len; lia|reflexivity].
Qed.

(** X1: in every state a beacon can reach, a share that [GetShare] finds
    under a hash has that hash, is of the current round, and carries the
    hash of the latest signature of the history. *)
Theorem shares_in_flight_current
  (seed : Rand) (gs : list Group) (c : Config) (r : RandomBeacon) :
  reachable seed gs c r -> sharesCurrent r.
Proof.
  revert r. apply reachable_induction.
  - intros h s Hs. unfold GetShare in Hs. simpl in Hs.
    by rewrite lookup_empty in Hs.
  - intros r o _ IH.
    destruct o as [h|s groupID|s| |a| |]; simpl; try exact IH.
    + destruct (share_cases r s groupID) as [[Hadm ->]|(_ & -> & _)];
        [|exact IH].
      intros h s' Hs'. unfold GetShare in Hs'. simpl in Hs'.
      change (Round (set_curRoundShares
                (<[shareHash s:=s]> (curRoundShares r)) r)) with (Round r).
      change (sigHistory (set_curRoundShares
                (<[shareHash s:=s]> (curRoundShares r)) r))
        with (sigHistory r).
      destruct (decide (shareHash s = h)) as [<-|Hne].
      * rewrite lookup_insert_eq in Hs'. injection Hs' as <-.
        destruct Hadm as (Hround & prev & Hprev & Hhash).
        split; [reflexivity|]. split; [exact Hround|].
        exists prev. rewrite <- Hround. by split.
      * rewrite lookup_insert_ne in Hs' by exact Hne. by apply IH.
    + destruct (decide (sigRound s = Round r)) as [Hround|Hround].
      * rewrite sig_accepted by assumption. intros h s' Hs'.
        unfold GetShare in Hs'. simpl in Hs'. by rewrite lookup_empty in Hs'.
      * by rewrite sig_refused.
Qed.

(** The numbering of the history is kept by every call. *)
Lemma rounds_numbered_inv
  (seed : Rand) (gs : list Group) (c : Config) (r : RandomBeacon) :
  reachable seed gs c r ->
  index (sigHistory r) 0
  = Some {| sigRound := 0; sigLastRandVal := zero_hash;
            sigSig := bytes "DEX random beacon 0th signature" |} /\
  roundsNumbered r.
Proof.
  revert r. apply reachable_induction.
  - split; [reflexivity|]. intros i s Hi Hs.
    apply index_bounds in Hs. unfold len in Hs. simpl in Hs. lia.
  - intros r o _ [Hzero IH].
    destruct o as [h|s groupID|s| |a| |]; simpl; try (by split).
    + destruct (share_cases r s groupID) as [[_ ->]|(_ & -> & _)]; by split.
    + destruct (decide (sigRound s = Round r)) as [Hround|Hround].
      * rewrite sig_accepted by assumption. simpl. split.
        -- by apply index_app_l.
        -- intros i s' Hi Hs'. apply index_snoc in Hs' as [Hs'|[-> ->]].
           ++ by apply IH.
           ++ exact Hround.
      * rewrite sig_refused by assumption. by split.
Qed.

(** X2: in every state a beacon can reach, the history starts with the
    stand-in signature, and the signature it holds at a position [i >= 1]
    is of round [i]. *)
Theorem history_rounds_numbered
  (seed : Rand) (gs : list Group) (c : Config) (r : RandomBeacon) :
  reachable seed gs c r ->
  index (sigHistory r) 0
  = Some {| sigRound := 0; sigLastRandVal := zero_hash;
            sigSig := bytes "DEX random beacon 0th signature" |} /\
  roundsNumbered r.
Proof. exact (rounds_numbered_inv seed gs c r). Qed.

Lemma acceptedList_length (ops : list op) :
  forall r : RandomBeacon, len (acceptedList r ops) = acceptedSigs r ops.
Proof.
  induction ops as [|o ops IH]; intros r; [reflexivity|]. simpl.
  unfold len in *. rewrite length_app, Nat2Z.inj_add, IH. f_equal.
  destruct o; try reflexivity. by destruct (decide _).
Qed.

(** X3: whatever is called on a beacon, in whatever state, its history
    only grows at the end, and by exactly the signatures that
    [RecvRandBeaconSig] accepted, in the order of their acceptance. *)
Theorem history_append_only (ops : list op) :
  forall r : RandomBeacon,
    History (run r ops) = History r ++ acceptedList r ops.
Proof.
  unfold History.
  induction ops as [|o ops IH]; intros r; simpl; [by rewrite app_nil_r|].
  change (foldl step (step r o) ops) with (run (step r o) ops).
  rewrite IH. destruct o as [h|s groupID|s| |a| |]; simpl; try reflexivity.
  - by destruct (share_cases r s groupID) as [[_ ->]|(_ & -> & _)].
  - destruct (decide (sigRound s = Round r)) as [Hround|Hround].
    + rewrite sig_accepted by assumption. simpl. by rewrite <- app_assoc.
    + by rewrite sig_refused.
Qed.

(** X4: in every state a beacon can reach, [Committees()] does not panic
    and returns the groups that the three streams, as they stand, select;
    a share leaves its answer as it was. *)
Theorem Committees_of_the_streams
  (seed : Rand) (gs : list Group) (c : Config) (r : RandomBeacon) :
  reachable seed gs c r ->
  Committees r
  = Returns (Mod (rbRand r) (len gs), Mod (bpRand r) (len gs),
             Mod (ntRand r) (len gs)) /\
  forall (s : RandBeaconSigShare) (groupID : Z),
    Committees (fst (RecvRandBeaconSigShare r s groupID)) = Committees r.
Proof.
  intros Hreach. apply reachable_wellFormed in Hreach.
  destruct Hreach as [_ _ Hrb Hnt Hbp Hrbh Hnth Hbph]. split.
  - unfold Committees.
    by rewrite Hrbh, Hnth, Hbph, !cmteHistoryOf_last, <- Hrb, <- Hnt, <- Hbp.
  - intros s groupID.
    by destruct (share_cases r s groupID) as [[_ ->]|(_ & -> & _)].
Qed.

(** What [RecvRandBeaconSigShare] answers to a share that fails a check,
    when the history is not empty. *)
Lemma share_refused_outcome (r : RandomBeacon) (s : RandBeaconSigShare)
  (groupID : Z) :
  sigHistory r <> [] ->
  ~ admits r s ->
  exists e : error,
    RecvRandBeaconSigShare r s groupID = (r, Returns (None, Some e)).
Proof.
  intros Hne Hn. unfold RecvRandBeaconSigShare.
  destruct (decide (round r <> shareRound s)) as [|Hround]; [by eexists|].
  apply dec_stable in Hround.
  assert (is_Some (index (sigHistory r) (shareRound s - 1))) as [prev Hprev].
  { apply index_lt. rewrite <- Hround. unfold round, len.
    destruct (sigHistory r); [done|simpl; lia]. }
  rewrite Hprev. cbv zeta.
  destruct (decide (hash (sigSig prev) <> shareLastSigHash s)) as [|Hhash];
    [by eexists|].
  apply dec_stable in Hhash. exfalso. apply Hn.
  split; [by unfold Round|]. by exists prev.
Qed.

(** The same for any history: a share that fails a check is answered
    with an error, or the indexing of an empty history panics; the beacon
    is as it was. *)
Lemma share_refused_cases (r : RandomBeacon) (s : RandBeaconSigShare)
  (groupID : Z) :
  ~ admits r s ->
  (exists e : error,
     RecvRandBeaconSigShare r s groupID = (r, Returns (None, Some e))) \/
  RecvRandBeaconSigShare r s groupID = (r, Panics "index out of range").
Proof.
  intros Hn. unfold RecvRandBeaconSigShare.
  destruct (decide (round r <> shareRound s)) as [|Hround];
    [left; by eexists|].
  apply dec_stable in Hround.
  destruct (index (sigHistory r) (shareRound s - 1)) as [prev|] eqn:Hprev;
    [|by right].
  cbv zeta.
  destruct (decide (hash (sigSig prev) <> shareLastSigHash s)) as [|Hhash];
    [left; by eexists|].
  apply dec_stable in Hhash. exfalso. apply Hn.
  split; [by unfold Round|]. by exists prev.
Qed.

(** X5: on a beacon in a state it can reach, [RecvRandBeaconSigShare]
    panics in one situation only: the share passes both checks, the
    shares in flight reach the threshold, and either [groupID] names no
    group or the recovered signature does not verify under the key of
    that group. *)
Theorem RecvRandBeaconSigShare_panics_only_in_recovery
  (seed : Rand) (gs : list Group) (c : Config) (r : RandomBeacon)
  (s : RandBeaconSigShare) (groupID : Z) :
  reachable seed gs c r ->
  let shares := <[shareHash s := s]> (curRoundShares r) in
  (exists msg : string,
     snd (RecvRandBeaconSigShare r s groupID) = Panics msg) <->
  admits r s /\
  GroupThreshold (cfg r) <= Z.of_nat (size shares) /\
  match index (groups r) groupID with
  | None => True
  | Some g =>
    Verify (recoverRandBeaconSig shares) (PK g)
      (Encode {| sigRound := shareRound s;
                 sigLastRandVal := shareLastSigHash s;
                 sigSig := [] |} false) = false
  end.
Proof.
  intros Hreach shares. apply reachable_wellFormed in Hreach.
  destruct Hreach as [_ Hne _ _ _ _ _ _]. split.
  - intros [msg Hpanic].
    assert (admits r s) as Hadm.
    { destruct (share_cases r s groupID) as [[Hadm _]|(Hn & _ & _)];
        [exact Hadm|].
      destruct (share_refused_outcome r s groupID Hne Hn) as [e He].
      rewrite He in Hpanic. discriminate. }
    split; [exact Hadm|].
    rewrite (share_outcome r s groupID Hadm) in Hpanic. cbv zeta in Hpanic.
    fold shares in Hpanic.
    destruct (decide (GroupThreshold (cfg r) <= _)); [|discriminate].
    split; [assumption|].
    destruct (index (groups r) groupID); [|exact I].
    by destruct (Verify _ _ _).
  - intros (Hadm & Hmet & Hfail).
    rewrite (share_outcome r s groupID Hadm). cbv zeta. fold shares.
    destruct (decide (GroupThreshold (cfg r) <= _)); [|contradiction].
    destruct (index (groups r) groupID); [|by eexists].
    rewrite Hfail. by eexists.
Qed.

(** X6: once [RecvRandBeaconSig] has accepted a signature of round
    [Round()], that round is closed: every signature and every share of
    that round is refused with a round error and without any effect, and
    [GetShare] finds nothing. *)
Theorem round_advance_closes_round (r : RandomBeacon) (s : RandBeaconSig) :
  sigRound s = Round r ->
  let r' := fst (RecvRandBeaconSig r s) in
  (forall s2 : RandBeaconSig,
     sigRound s2 = Round r ->
     RecvRandBeaconSig r' s2
     = (r', Some (ErrSigRound (Round r) (Round r + 1)))) /\
  (forall (sh : RandBeaconSigShare) (groupID : Z),
     shareRound sh = Round r ->
     RecvRandBeaconSigShare r' sh groupID
     = (r', Returns (None, Some (ErrShareRound (Round r) (Round r + 1))))) /\
  (forall h : Hash, GetShare r' h = None).
Proof.
  intros Hround r'.
  assert (Round r' = Round r + 1) as Hnext.
  { subst r'. rewrite sig_accepted by assumption. unfold Round, round. simpl.
    apply len_snoc. }
  split; [|split].
  - intros s2 Hs2. rewrite sig_refused by lia. by rewrite Hs2, Hnext.
  - intros sh groupID Hsh. unfold RecvRandBeaconSigShare.
    change (round r') with (Round r').
    destruct (decide (Round r' <> shareRound sh)) as [_|He].
    + by rewrite Hsh, Hnext.
    + apply dec_stable in He. lia.
  - intros h. subst r'. rewrite sig_accepted by assumption.
    unfold GetShare. simpl. apply lookup_empty.
Qed.

(** X7: a share that passes both checks when the shares in flight have
    already reached the threshold, or when the threshold is 1 or less, is
    never answered with [(nil, nil)]: the signature is recovered again,
    from all the shares in flight and the new one, and returned when it
    verifies. *)
Theorem recovery_repeats_after_threshold
  (r : RandomBeacon) (s : RandBeaconSigShare) (groupID : Z) :
  admits r s ->
  GroupThreshold (cfg r) <= Z.of_nat (size (curRoundShares r)) \/
  GroupThreshold (cfg r) <= 1 ->
  let shares := <[shareHash s := s]> (curRoundShares r) in
  snd (RecvRandBeaconSigShare r s groupID) <> Returns (None, None) /\
  forall g : Group,
    index (groups r) groupID = Some g ->
    Verify (recoverRandBeaconSig shares) (PK g)
      (Encode {| sigRound := shareRound s;
                 sigLastRandVal := shareLastSigHash s;
                 sigSig := [] |} false) = true ->
    snd (RecvRandBeaconSigShare r s groupID)
    = Returns (Some {| sigRound := shareRound s;
                       sigLastRandVal := shareLastSigHash s;
                       sigSig := Serialize (recoverRandBeaconSig shares) |},
               None).
Proof.
  intros Hadm Hmet shares. rewrite (share_outcome r s groupID Hadm).
  cbv zeta. fold shares.
  assert (GroupThreshold (cfg r) <= Z.of_nat (size shares)) as Hge.
  { subst shares.
    destruct (curRoundShares r !! shareHash s) as [old|] eqn:Hlook.
    - rewrite map_size_insert_Some by (by exists old).
      assert (size (curRoundShares r) <> 0%nat)
        by (apply (map_size_ne_0_lookup_2 _ (shareHash s)); by exists old).
      destruct Hmet; lia.
    - rewrite map_size_insert_None by exact Hlook. destruct Hmet; lia. }
  destruct (decide (GroupThreshold (cfg r) <= _)); [|contradiction].
  split.
  - destruct (index (groups r) groupID); [|discriminate].
    destruct (Verify _ _ _); discriminate.
  - intros g -> ->. reflexivity.
Qed.

(** X8: after [RecvRandBeaconSig] has accepted [s], the shares that pass
    the two checks of [RecvRandBeaconSigShare] are exactly those of the
    next round that carry the hash of [s.Sig]. *)
Theorem next_round_shares_bound_to_signature
  (r : RandomBeacon) (s : RandBeaconSig) (sh : RandBeaconSigShare) :
  sigRound s = Round r ->
  admits (fst (RecvRandBeaconSig r s)) sh <->
  shareRound sh = Round r + 1 /\ shareLastSigHash sh = hash (sigSig s).
Proof.
  intros Hround. rewrite sig_accepted by assumption. unfold admits. simpl.
  assert (Round {| cfg := cfg r;
      nextRBCmteHistory := nextRBCmteHistory r ++
        [Mod (Derive (rbRand r) (hash_bytes (hash (sigSig s)))) (len (groups r))];
      nextNtCmteHistory := nextNtCmteHistory r ++
        [Mod (Derive (ntRand r) (hash_bytes (hash (sigSig s)))) (len (groups r))];
      nextBPCmteHistory := nextBPCmteHistory r ++
        [Mod (Derive (bpRand r) (hash_bytes (hash (sigSig s)))) (len (groups r))];
      groups := groups r;
      rbRand := Derive (rbRand r) (hash_bytes (hash (sigSig s)));
      ntRand := Derive (ntRand r) (hash_bytes (hash (sigSig s)));
      bpRand := Derive (bpRand r) (hash_bytes (hash (sigSig s)));
      curRoundShares := ∅;
      sigHistory := sigHistory r ++ [s] |} = Round r + 1) as ->.
  { unfold Round, round. simpl. apply len_snoc. }
  assert (index (sigHistory r ++ [s]) (Round r + 1 - 1) = Some s) as Hlast.
  { pose proof (index_last (sigHistory r) s) as Hl.
    rewrite len_snoc in Hl. exact Hl. }
  split.
  - intros (Hsh & prev & Hprev & Hhash). split; [exact Hsh|].
    rewrite Hsh, Hlast in Hprev. by injection Hprev as <-.
  - intros [Hsh Hhash]. split; [exact Hsh|]. exists s.
    rewrite Hsh. by split.
Qed.

End BeaconMore.

(** * Further properties of the gossip layer *)

Section GossipFacts.
Context `{Primitives} `{!Scheme} `{!Collaborators} `{!Validator}.

(** ** Peers *)

(** The outcomes of [findOrConnect]. *)
Lemma findOrConnect_cases (n n' : Networking) (a : string)
  (res : NetError + Peer) :
  findOrConnect n a = (n', res) ->
  match res with
  | inl err => n' = n /\ peers n !! a = None /\ Connect a = inl err
  | inr p =>
    (peers n !! a = Some p /\ n' = n \/
     peers n !! a = None /\ Connect a = inr p) /\
    peers n' = <[a := p]> (peers n) /\
    addr n' = addr n /\ chain n' = chain n /\ peerAddrs n' = peerAddrs n /\
    findOrConnect n' a = (n', inr p)
  end.
Proof.
  unfold findOrConnect.
  destruct (peers n !! a) as [p|] eqn:Hknown.
  - intros [= <- <-]. rewrite Hknown.
    split; [by left|]. split; [by rewrite insert_id|]. by repeat split.
  - destruct (Connect a) as [err|p] eqn:Hconn; intros [= <- <-].
    + by repeat split.
    + simpl. rewrite lookup_insert_eq. split; [by right|]. by repeat split.
Qed.

(** X9: [findOrConnect] hands out the peer it knows under an address
    without connecting; it connects only for an unknown address, leaves
    the node as it was when that fails, and otherwise records the new peer
    under the address and changes nothing else, so that asking again
    gives the same peer and the same node. *)
Theorem findOrConnect_remembers (n n' : Networking) (a : string)
  (res : NetError + Peer) :
  findOrConnect n a = (n', res) ->
  match res with
  | inl err => n' = n /\ peers n !! a = None /\ Connect a = inl err
  | inr p =>
    (peers n !! a = Some p /\ n' = n \/
     peers n !! a = None /\ Connect a = inr p) /\
    peers n' = <[a := p]> (peers n) /\
    addr n' = addr n /\ chain n' = chain n /\ peerAddrs n' = peerAddrs n /\
    findOrConnect n' a = (n', inr p)
  end.
Proof. exact (findOrConnect_cases n n' a res). Qed.

(** ** Inventory, at the level of the announcement *)

#[global] Instance wanted_dec (n : Networking) (round : Z) (id : ItemID) :
  Decision (wanted n round id).
Proof. unfold wanted. destruct (idT id); apply _. Defined.

#[global] Instance unimplemented_dec (id : ItemID) : Decision (unimplemented id).
Proof. unfold unimplemented. apply _. Defined.

Lemma requests_app (evs evs' : list event) :
  requests (evs ++ evs') = requests evs ++ requests evs'.
Proof. unfold requests. apply omap_app. Qed.

(** One turn of [recvInventory] on an item that is not a transaction:
    it ends normally, with one request if the item is wanted and none
    otherwise. *)
Lemma recvInventoryItem_requests (n : Networking) (p : Peer) (round : Z)
  (id : ItemID) :
  ~ unimplemented id ->
  snd (recvInventoryItem n p round id) = Returns tt /\
  requests (fst (recvInventoryItem n p round id))
  = if decide (wanted n round id) then [(p, addr n, [id])] else [].
Proof.
  intros Hnot. unfold unimplemented in Hnot.
  destruct (decide (wanted n round id)) as [Hw|Hw];
    unfold wanted in Hw; unfold recvInventoryItem;
    destruct (idT id) eqn:HT; try tauto;
    repeat match goal with
    | |- context [decide ?P] => destruct (decide P)
    | |- context [match ?o with Some _ => _ | None => _ end] =>
        destruct o eqn:?
    | |- context [if ?b then _ else _] => destruct b eqn:?
    end; simpl; try (split; reflexivity); exfalso;
    try (destruct Hw as (? & ? & ?)); try (destruct Hw as (? & ?));
    try congruence; try tauto.
Qed.

Lemma rangeOver_requests (n : Networking) (p : Peer) (round : Z)
  (ids : list ItemID) :
  (forall id : ItemID, id ∈ ids -> ~ unimplemented id) ->
  snd (rangeOver (recvInventoryItem n p round) ids) = Returns tt /\
  requests (fst (rangeOver (recvInventoryItem n p round) ids))
  = (fun id => (p, addr n, [id])) <$> filter (wanted n round) ids.
Proof.
  induction ids as [|id ids IH]; intros Hall; [by split|].
  destruct (recvInventoryItem_requests n p round id) as [Hret Hreq].
  { apply Hall, list_elem_of_here. }
  destruct IH as [IHret IHreq].
  { intros i Hi. by apply Hall, list_elem_of_further. }
  simpl. destruct (recvInventoryItem n p round id) as [evs o]. simpl in *.
  subst o. destruct (rangeOver (recvInventoryItem n p round) ids) as [evs' o'].
  simpl in *. split; [exact IHret|].
  rewrite requests_app, Hreq, IHreq, filter_cons.
  by destruct (decide (wanted n round id)).
Qed.

(** X10: when the sender can be reached and the announcement holds no
    transaction item, [recvInventory] ends normally and its [GetData]
    calls are, in the order of the announcement and one call per item,
    exactly the announced items that are wanted: an item announced twice
    is asked for twice.  Of the node it changes nothing but the peer
    table, which now knows the sender. *)
Theorem recvInventory_requests_wanted (n : Networking) (sender : string)
  (ids : list ItemID) (p : Peer) :
  snd (findOrConnect n sender) = inr p ->
  (forall id : ItemID, id ∈ ids -> ~ unimplemented id) ->
  snd (snd (recvInventory n sender ids)) = Returns tt /\
  requests (fst (snd (recvInventory n sender ids)))
  = (fun id => (p, addr n, [id]))
      <$> filter (wanted n (chainRound (chain n))) ids /\
  peers (fst (recvInventory n sender ids)) = <[sender := p]> (peers n) /\
  addr (fst (recvInventory n sender ids)) = addr n /\
  chain (fst (recvInventory n sender ids)) = chain n /\
  peerAddrs (fst (recvInventory n sender ids)) = peerAddrs n.
Proof.
  intros Hconn Hall. unfold recvInventory.
  destruct (findOrConnect n sender) as [n' res] eqn:Hfind.
  simpl in Hconn. subst res.
  pose proof (findOrConnect_cases n n' sender (inr p) Hfind)
    as (_ & Hpeers & Haddr & Hchain & Hpa & _).
  simpl.
  destruct (rangeOver_requests n' p (chainRound (chain n')) ids Hall)
    as [Hret Hreq].
  rewrite Hret, Hreq, Haddr. split; [reflexivity|]. split; [|by repeat split].
  f_equal. apply list_filter_iff. intros id. unfold wanted. by rewrite Hchain.
Qed.

Lemma rangeOver_panic (body : ItemID -> list event * outcome unit)
  (pre post : list ItemID) (id : ItemID) (msg : string) :
  snd (rangeOver body pre) = Returns tt ->
  snd (body id) = Panics msg ->
  rangeOver body (pre ++ id :: post)
  = (fst (rangeOver body pre) ++ fst (body id), Panics msg).
Proof.
  intros Hpre Hid. rewrite rangeOver_app by exact Hpre. simpl.
  destruct (body id) as [evs o]. simpl in *. by subst o.
Qed.

(** X11: a transaction item stops [recvInventory]: with the sender
    reached, the call panics at the first [TxnItem] or [SysTxnItem] of the
    announcement, having handled the items before it and none after it.
    With the sender out of reach the call only logs the error: it asks
    for nothing, does not panic whatever is announced, and leaves the node
    as it was. *)
Theorem recvInventory_stops_at_transaction (n : Networking) (sender : string) :
  (forall (p : Peer) (pre post : list ItemID) (id : ItemID),
     snd (findOrConnect n sender) = inr p ->
     (forall i : ItemID, i ∈ pre -> ~ unimplemented i) ->
     unimplemented id ->
     snd (recvInventory n sender (pre ++ id :: post))
     = (fst (snd (recvInventory n sender pre)), Panics "not implemented")) /\
  (forall (err : NetError) (ids : list ItemID),
     snd (findOrConnect n sender) = inl err ->
     recvInventory n sender ids = (n, ([Log (LogError err)], Returns tt))).
Proof.
  split.
  - intros p pre post id Hconn Hpre Hid. unfold recvInventory.
    destruct (findOrConnect n sender) as [n' res]. simpl in Hconn. subst res.
    simpl.
    destruct (rangeOver_requests n' p (chainRound (chain n')) pre Hpre)
      as [Hret _].
    rewrite (rangeOver_panic _ pre post id "not implemented" Hret).
    + f_equal. unfold recvInventoryItem.
      destruct Hid as [-> | ->]; simpl; by rewrite app_nil_r.
    + unfold recvInventoryItem. by destruct Hid as [-> | ->].
  - intros err ids Hconn. unfold recvInventory.
    destruct (findOrConnect n sender) as [n' res] eqn:Hfind.
    simpl in Hconn. subst res.
    by destruct (findOrConnect_cases n n' sender (inl err) Hfind)
      as (-> & _).
Qed.

(** ** Serving data, at the level of the request *)

Lemma serveDataItem_returns (n : Networking) (p : Peer) (requester : string)
  (id : ItemID) :
  ~ unservable id -> snd (serveDataItem n p requester id) = Returns tt.
Proof.
  intros Hnot. unfold unservable, unimplemented in Hnot.
  unfold serveDataItem. destruct (idT id) eqn:HT; try tauto;
    try (by match goal with
            | |- context [match ?o with Some _ => _ | None => _ end] =>
                destruct o
            end).
  cbv zeta. destruct (decide _) as [|Hlt]; [reflexivity|].
  destruct (index_lt (History (chainRandomBeacon (chain n))) (ItemRound id))
    as [s ->]; [|reflexivity].
  split; [|lia]. destruct (decide (0 <= ItemRound id)); [assumption|].
  exfalso. apply Hnot. right. split; [reflexivity|lia].
Qed.

Lemma serveDataItem_panics (n : Networking) (p : Peer) (requester : string)
  (id : ItemID) :
  unservable id ->
  serveDataItem n p requester id
  = ([], Panics (if decide (unimplemented id) then "not implemented"
                 else "index out of range")).
Proof.
  intros Hun. destruct (decide (unimplemented id)) as [Hu|Hu].
  - unfold serveDataItem. by destruct Hu as [-> | ->].
  - destruct Hun as [Hun|[HT Hneg]]; [contradiction|].
    by apply serveDataItem_beacon.
Qed.

(** X12: with the requester reached, [serveData] ends normally on a
    request list without transaction items and without beacon items of a
    negative round, and panics at the first such item of any other list,
    having served the items before it and none after it.  With the
    requester out of reach it logs the error and serves nothing. *)
Theorem serveData_stops_at_unservable (n : Networking) (requester : string) :
  (forall (p : Peer) (ids : list ItemID),
     snd (findOrConnect n requester) = inr p ->
     (forall i : ItemID, i ∈ ids -> ~ unservable i) ->
     snd (snd (serveData n requester ids)) = Returns tt) /\
  (forall (p : Peer) (pre post : list ItemID) (id : ItemID),
     snd (findOrConnect n requester) = inr p ->
     (forall i : ItemID, i ∈ pre -> ~ unservable i) ->
     unservable id ->
     snd (serveData n requester (pre ++ id :: post))
     = (fst (snd (serveData n requester pre)),
        Panics (if decide (unimplemented id) then "not implemented"
                else "index out of range"))) /\
  (forall (err : NetError) (ids : list ItemID),
     snd (findOrConnect n requester) = inl err ->
     serveData n requester ids = (n, ([Log (LogError err)], Returns tt))).
Proof.
  split; [|split].
  - intros p ids Hconn Hall. unfold serveData.
    destruct (findOrConnect n requester) as [n' res]. simpl in Hconn.
    subst res. simpl. apply rangeOver_returns.
    intros id Hid. by apply serveDataItem_returns, Hall.
  - intros p pre post id Hconn Hpre Hid. unfold serveData.
    destruct (findOrConnect n requester) as [n' res]. simpl in Hconn.
    subst res. simpl.
    assert (snd (rangeOver (serveDataItem n' p requester) pre) = Returns tt)
      as Hret.
    { apply rangeOver_returns. intros i Hi.
      by apply serveDataItem_returns, Hpre. }
    rewrite (rangeOver_panic _ pre post id _ Hret
               (f_equal snd (serveDataItem_panics n' p requester id Hid))).
    by rewrite (serveDataItem_panics n' p requester id Hid), app_nil_r.
  - intros err ids Hconn. unfold serveData.
    destruct (findOrConnect n requester) as [n' res] eqn:Hfind.
    simpl in Hconn. subst res.
    by destruct (findOrConnect_cases n n' requester (inl err) Hfind)
      as (-> & _).
Qed.

(** X13: when the beacon of the chain is in a state it can reach, a
    request for the beacon signatures of rounds inside the history is
    answered, in the order of the request, with one signature per item,
    and the signature sent for an item is the one of the round the item
    names. *)
Theorem serveData_serves_rounds
  (seed : Rand) (gs : list Group) (c : Config)
  (n : Networking) (requester : string) (p : Peer) (ids : list ItemID) :
  reachable seed gs c (chainRandomBeacon (chain n)) ->
  snd (findOrConnect n requester) = inr p ->
  (forall id : ItemID,
     id ∈ ids ->
     idT id = RandBeaconItem /\
     0 <= ItemRound id < Round (chainRandomBeacon (chain n))) ->
  exists sigs : list RandBeaconSig,
    snd (serveData n requester ids)
    = (SendRandBeaconSig p <$> sigs, Returns tt) /\
    sigRound <$> sigs = ItemRound <$> ids /\
    forall s : RandBeaconSig,
      s ∈ sigs -> s ∈ History (chainRandomBeacon (chain n)).
Proof.
  intros Hreach Hconn Hall.
  destruct (rounds_numbered_inv seed gs c _ Hreach) as [Hzero Hnum].
  destruct (findOrConnect_keeps n requester) as [_ Hchain].
  unfold serveData.
  destruct (findOrConnect n requester) as [n' res]. simpl in Hconn, Hchain.
  subst res. simpl.
  induction ids as [|id ids IH].
  - exists []. repeat split. intros s Hs. by apply elem_of_nil in Hs.
  - destruct IH as (sigs & Hserve & Hrounds & Hheld).
    { intros i Hi. by apply Hall, list_elem_of_further. }
    destruct (Hall id (list_elem_of_here _ _)) as [HT Hrange].
    destruct (serveDataItem_beacon n' p requester id HT) as (_ & Hin & _).
    rewrite Hchain in Hin. destruct (Hin Hrange) as (s & Hs & Hitem).
    exists (s :: sigs). simpl. rewrite Hitem.
    destruct (rangeOver (serveDataItem n' p requester) ids) as [evs o].
    injection Hserve as -> ->. split; [reflexivity|]. split.
    + change (sigRound s :: (sigRound <$> sigs)
              = ItemRound id :: (ItemRound <$> ids)).
      rewrite Hrounds. f_equal.
      destruct (decide (ItemRound id = 0)) as [Hz|Hz].
      * rewrite Hz in Hs. unfold History in Hs. rewrite Hzero in Hs.
        injection Hs as <-. by rewrite Hz.
      * apply Hnum; [lia|exact Hs].
    + intros s' Hs'. apply elem_of_cons in Hs' as [->|Hs']; [|by apply Hheld].
      apply index_Some in Hs as [_ Hs]. by eapply list_elem_of_lookup_2.
Qed.

(** ** Receiving signatures and shares *)

(** The two cases of [recvRandBeaconSig]. *)
Lemma recvRandBeaconSig_cases (b : RandomBeacon) (s : RandBeaconSig) :
  (ValidateRandBeaconSig s = true /\ sigRound s = Round b ->
   fst (recvRandBeaconSig b s) = fst (RecvRandBeaconSig b s) /\
   Round (fst (recvRandBeaconSig b s)) = Round b + 1 /\
   snd (recvRandBeaconSig b s)
   = [GoBroadcastItem {| idT := RandBeaconItem; ItemRound := Round b;
                         Ref := zero_hash; idHash := sigHash s |}]) /\
  (~ (ValidateRandBeaconSig s = true /\ sigRound s = Round b) ->
   fst (recvRandBeaconSig b s) = b /\
   exists l : action,
     snd (recvRandBeaconSig b s) = [l] /\
     (l = LogSigInvalid (sigRound s) \/
      l = LogBeaconError (ErrSigRound (sigRound s) (Round b)))).
Proof.
  unfold recvRandBeaconSig. split.
  - intros [-> Hround]. simpl. rewrite sig_accepted by assumption. simpl.
    split; [reflexivity|]. split; [|by rewrite Hround].
    unfold Round, round. simpl. apply len_snoc.
  - intros Hnot. destruct (ValidateRandBeaconSig s); simpl.
    + rewrite sig_refused by tauto. simpl. split; [reflexivity|].
      eexists. split; [reflexivity|by right].
    + split; [reflexivity|]. eexists. split; [reflexivity|by left].
Qed.

(** X14: [recvRandBeaconSig] lets a signature reach the beacon only when
    the validator accepts it, and announces it only when the beacon
    accepted it: a signature that is valid and of the current round
    advances the round and starts one broadcast, of a [RandBeaconItem] of
    that round with the hash of the signature; any other signature leaves
    the beacon as it was and starts nothing. *)
Theorem recvRandBeaconSig_gate (b : RandomBeacon) (s : RandBeaconSig) :
  (ValidateRandBeaconSig s = true /\ sigRound s = Round b ->
   fst (recvRandBeaconSig b s) = fst (RecvRandBeaconSig b s) /\
   Round (fst (recvRandBeaconSig b s)) = Round b + 1 /\
   snd (recvRandBeaconSig b s)
   = [GoBroadcastItem {| idT := RandBeaconItem; ItemRound := Round b;
                         Ref := zero_hash; idHash := sigHash s |}]) /\
  (~ (ValidateRandBeaconSig s = true /\ sigRound s = Round b) ->
   fst (recvRandBeaconSig b s) = b /\
   exists l : action,
     snd (recvRandBeaconSig b s) = [l] /\
     (l = LogSigInvalid (sigRound s) \/
      l = LogBeaconError (ErrSigRound (sigRound s) (Round b)))).
Proof. exact (recvRandBeaconSig_cases b s). Qed.

(** X15: a valid share that completes the threshold is not announced.
    [recvRandBeaconSigShare] stores it and starts [recvRandBeaconSig] on
    the recovered signature instead; when the validator accepts that
    signature, running the started call advances the beacon to the next
    round with the signature at the end of the history and no share in
    flight, and starts the broadcast of the signature. *)
Theorem recvRandBeaconSigShare_hands_over
  (b : RandomBeacon) (sh : RandBeaconSigShare) (groupID : Z) (g : Group) :
  ValidateRandBeaconSigShare sh = (groupID, true) ->
  admits b sh ->
  let shares := <[shareHash sh := sh]> (curRoundShares b) in
  let rbs := {| sigRound := shareRound sh;
                sigLastRandVal := shareLastSigHash sh;
                sigSig := Serialize (recoverRandBeaconSig shares) |} in
  GroupThreshold (cfg b) <= Z.of_nat (size shares) ->
  index (groups b) groupID = Some g ->
  Verify (recoverRandBeaconSig shares) (PK g)
    (Encode {| sigRound := shareRound sh;
               sigLastRandVal := shareLastSigHash sh;
               sigSig := [] |} false) = true ->
  recvRandBeaconSigShare b sh
  = (set_curRoundShares shares b, ([GoRecvRandBeaconSig rbs], Returns tt)) /\
  (ValidateRandBeaconSig rbs = true ->
   let b' := fst (recvRandBeaconSig (set_curRoundShares shares b) rbs) in
   Round b' = Round b + 1 /\
   sigHistory b' = sigHistory b ++ [rbs] /\
   curRoundShares b' = ∅ /\
   snd (recvRandBeaconSig (set_curRoundShares shares b) rbs)
   = [GoBroadcastItem {| idT := RandBeaconItem; ItemRound := Round b;
                         Ref := zero_hash; idHash := sigHash rbs |}]).
Proof.
  intros Hvalid Hadm shares rbs Hmet Hg Hverify.
  assert (RecvRandBeaconSigShare b sh groupID
          = (set_curRoundShares shares b, Returns (Some rbs, None))) as Hrecv.
  { rewrite (surjective_pairing (RecvRandBeaconSigShare b sh groupID)).
    rewrite (share_admitted b sh groupID Hadm),
            (share_outcome b sh groupID Hadm).
    cbv zeta. fold shares.
    destruct (decide (GroupThreshold (cfg b) <= _)); [|contradiction].
    by rewrite Hg, Hverify. }
  split.
  - unfold recvRandBeaconSigShare. rewrite Hvalid. simpl. by rewrite Hrecv.
  - intros Hok b'.
    assert (sigRound rbs = Round (set_curRoundShares shares b)) as Hround
      by apply Hadm.
    destruct (recvRandBeaconSig_cases (set_curRoundShares shares b) rbs)
      as [Hacc _].
    destruct (Hacc (conj Hok Hround)) as (Hfst & Hnext & Hacts).
    subst b'. rewrite Hfst, sig_accepted by exact Hround.
    rewrite Hfst, sig_accepted in Hnext by exact Hround.
    repeat split; assumption.
Qed.

(** X16: [recvRandBeaconSigShare] lets a share reach the beacon only when
    the validator accepts it, and announces it only when the beacon
    stored it below the threshold: such a share starts one broadcast, of
    a [RandBeaconShareItem] of its round with its hash; a share that the
    validator or the beacon refuses leaves the beacon as it was and
    starts nothing. *)
Theorem recvRandBeaconSigShare_gate
  (b : RandomBeacon) (sh : RandBeaconSigShare) :
  (snd (ValidateRandBeaconSigShare sh) = true ->
   admits b sh ->
   Z.of_nat (size (<[shareHash sh := sh]> (curRoundShares b)))
     < GroupThreshold (cfg b) ->
   recvRandBeaconSigShare b sh
   = (set_curRoundShares (<[shareHash sh := sh]> (curRoundShares b)) b,
      ([GoBroadcastItem {| idT := RandBeaconShareItem;
                           ItemRound := shareRound sh;
                           Ref := zero_hash;
                           idHash := shareHash sh |}], Returns tt))) /\
  (snd (ValidateRandBeaconSigShare sh) = false \/ ~ admits b sh ->
   fst (recvRandBeaconSigShare b sh) = b /\
   forall a : action,
     a ∈ fst (snd (recvRandBeaconSigShare b sh)) ->
     a = LogShareInvalid (shareOwner sh) (shareRound sh) \/
     exists e : error, a = LogBeaconError e).
Proof.
  unfold recvRandBeaconSigShare.
  destruct (ValidateRandBeaconSigShare sh) as [groupID valid]. simpl. split.
  - intros -> Hadm Hbelow. simpl.
    rewrite (surjective_pairing (RecvRandBeaconSigShare b sh groupID)).
    rewrite (share_admitted b sh groupID Hadm),
            (share_outcome b sh groupID Hadm).
    cbv zeta. by destruct (decide (GroupThreshold (cfg b) <= _)); [lia|].
  - intros Hrefused. destruct valid; simpl.
    + destruct Hrefused as [|Hn]; [discriminate|].
      destruct (share_refused_cases b sh groupID Hn) as [[e ->]| ->]; simpl.
      * split; [reflexivity|]. intros a Ha.
        apply list_elem_of_singleton in Ha as ->. right. by exists e.
      * split; [reflexivity|]. intros a Ha. by apply elem_of_nil in Ha.
    + split; [reflexivity|]. intros a Ha.
      apply list_elem_of_singleton in Ha as ->. by left.
Qed.

(** ** Broadcasting *)

(** X17: [BroadcastItem] starts one [Inventory] call per peer of the
    peer table, each with the node's own address as sender and the item
    alone; a new node reaches nobody, and a peer whose announcement
    [recvInventory] has handled is among those reached afterwards. *)
Theorem BroadcastItem_reaches_every_peer (n : Networking) (item : ItemID) :
  length (BroadcastItem n item) = size (peers n) /\
  (forall call : inventoryCall,
     call ∈ BroadcastItem n item <->
     exists (a : string) (p : Peer),
       peers n !! a = Some p /\
       call = {| callee := p; callSender := addr n; callItems := [item] |}) /\
  (forall (a : string) (c : Chain), BroadcastItem (NewNetworking a c) item = []) /\
  (forall (sender : string) (ids : list ItemID) (p : Peer),
     snd (findOrConnect n sender) = inr p ->
     {| callee := p; callSender := addr n; callItems := [item] |}
     ∈ BroadcastItem (fst (recvInventory n sender ids)) item).
Proof.
  assert (forall (m : Networking) (call : inventoryCall),
     call ∈ BroadcastItem m item <->
     exists (a : string) (p : Peer),
       peers m !! a = Some p /\
       call = {| callee := p; callSender := addr m; callItems := [item] |})
    as Hcalls.
  { intros m call. unfold BroadcastItem. rewrite list_elem_of_fmap. split.
    - intros ([a p] & -> & Hin). apply elem_of_map_to_list in Hin.
      by exists a, p.
    - intros (a & p & Hp & ->). exists (a, p).
      split; [reflexivity|]. by apply elem_of_map_to_list. }
  split; [|split; [exact (Hcalls n)|split]].
  - unfold BroadcastItem. by rewrite length_fmap, length_map_to_list.
  - intros a c. unfold BroadcastItem, NewNetworking. simpl.
    by rewrite map_to_list_empty.
  - intros sender ids p Hconn. apply Hcalls. exists sender, p.
    unfold recvInventory.
    destruct (findOrConnect n sender) as [n' res] eqn:Hfind.
    simpl in Hconn. subst res. simpl.
    destruct (findOrConnect_cases n n' sender (inr p) Hfind)
      as (_ & Hpeers & Haddr & _).
    rewrite Hpeers, Haddr, lookup_insert_eq. by split.
Qed.

(** ** Syncing *)

(** The three cases of [getSyncData]. *)
Lemma getSyncData_cases (c : Chain) (start : Z) :
  let history := History (chainRandomBeacon c) in
  (len history <= start -> getSyncData c start = Returns ([], [])) /\
  (0 <= start < len history ->
   getSyncData c start
   = Returns (drop (Z.to_nat start) history,
              drop (Z.to_nat start) (FinalizedChain c)) /\
   take (Z.to_nat start) history ++ drop (Z.to_nat start) history = history /\
   len (drop (Z.to_nat start) history) = len history - start) /\
  (start < 0 -> getSyncData c start = Panics "slice bounds out of range").
Proof.
  intros history. unfold getSyncData. fold history.
  split; [|split].
  - intros Hge. by destruct (decide (len history <= start)).
  - intros [Hlo Hhi]. destruct (decide (len history <= start)); [lia|].
    split; [|split].
    + unfold sliceFrom.
      destruct (decide (0 <= start <= len history)); [|lia].
      destruct (decide (len (FinalizedChain c) <= start)) as [Hshort|Hlong].
      * rewrite (drop_ge (FinalizedChain c)); [reflexivity|].
        unfold len in Hshort. lia.
      * by destruct (decide (0 <= start <= len (FinalizedChain c))); [|lia].
    + apply take_drop.
    + unfold len in *. rewrite length_drop. lia.
  - intros Hneg. pose proof (Nat2Z.is_nonneg (length history)).
    pose proof (Nat2Z.is_nonneg (length (FinalizedChain c))).
    unfold len. destruct (decide (_ <= start)); [lia|].
    destruct (decide (_ <= start)); [lia|].
    unfold sliceFrom. by destruct (decide (0 <= start <= _)); [lia|].
Qed.

(** X18: [getSyncData(start)] returns nothing at all, blocks included,
    when [start] is at or beyond the end of the beacon history; for a
    [start] inside the history it returns the signatures and the finalized
    blocks from position [start] on, so that the first [start] signatures
    followed by the returned ones are the history; and for a negative
    [start] the slicing panics. *)
Theorem getSyncData_returns_the_tail (c : Chain) (start : Z) :
  let history := History (chainRandomBeacon c) in
  (len history <= start -> getSyncData c start = Returns ([], [])) /\
  (0 <= start < len history ->
   getSyncData c start
   = Returns (drop (Z.to_nat start) history,
              drop (Z.to_nat start) (FinalizedChain c)) /\
   take (Z.to_nat start) history ++ drop (Z.to_nat start) history = history /\
   len (drop (Z.to_nat start) history) = len history - start) /\
  (start < 0 -> getSyncData c start = Panics "slice bounds out of range").
Proof. exact (getSyncData_cases c start). Qed.

Lemma reachable_run (seed : Rand) (gs : list Group) (c : Config)
  (r : RandomBeacon) (ops : list op) :
  reachable seed gs c r -> reachable seed gs c (run r ops).
Proof.
  intros [ops0 ->]. exists (ops0 ++ ops). unfold run. by rewrite foldl_app.
Qed.

(** The loop over signatures numbered from the round of the beacon on:
    every one of them is accepted. *)
Lemma syncRandBeacon_numbered (sigs : list RandBeaconSig) :
  forall b : RandomBeacon,
    (forall (j : nat) (s : RandBeaconSig),
       sigs !! j = Some s -> sigRound s = Round b + Z.of_nat j) ->
    syncRandBeacon b sigs = (run b (OpRecvRandBeaconSig <$> sigs), None) /\
    sigHistory (run b (OpRecvRandBeaconSig <$> sigs)) = sigHistory b ++ sigs.
Proof.
  induction sigs as [|s sigs IH]; intros b Hnum.
  - split; [reflexivity|]. simpl. by rewrite app_nil_r.
  - assert (sigRound s = Round b) as Hround.
    { rewrite (Hnum 0%nat s eq_refl). lia. }
    set (b1 := fst (RecvRandBeaconSig b s)).
    assert (RecvRandBeaconSig b s = (b1, None)) as Hrecv.
    { subst b1. by rewrite sig_accepted by exact Hround. }
    assert (sigHistory b1 = sigHistory b ++ [s]) as Hb1.
    { subst b1. by rewrite sig_accepted by exact Hround. }
    destruct (IH b1) as [Hsync Hhist].
    { intros j s' Hs'. rewrite (Hnum (S j) s' Hs').
      unfold Round, round. rewrite Hb1, len_snoc. lia. }
    change (run b (OpRecvRandBeaconSig <$> s :: sigs))
      with (run b1 (OpRecvRandBeaconSig <$> sigs)).
    cbn [syncRandBeacon]. rewrite Hrecv, Hsync, Hhist, Hb1.
    split; [reflexivity|]. by rewrite <- app_assoc.
Qed.

(** X19: a node whose beacon holds a beginning of a peer's signature
    history, both beacons built from the same seed and groups, catches up
    by the sync of [Start]: the peer's [getSyncData] for the node's
    history length returns the missing signatures, the loop over them
    meets no error, and afterwards the node's beacon holds the peer's
    history, round, streams and committee histories. *)
Theorem sync_catches_up
  (seed : Rand) (gs : list Group) (cfgNode cfgPeer : Config)
  (node : RandomBeacon) (peerChain : Chain) :
  reachable seed gs cfgNode node ->
  reachable seed gs cfgPeer (chainRandomBeacon peerChain) ->
  History node `prefix_of` History (chainRandomBeacon peerChain) ->
  exists (sigs : list RandBeaconSig) (blocks : list Block),
    getSyncData peerChain (len (History node)) = Returns (sigs, blocks) /\
    snd (syncRandBeacon node sigs) = None /\
    let node' := fst (syncRandBeacon node sigs) in
    History node' = History (chainRandomBeacon peerChain) /\
    Round node' = Round (chainRandomBeacon peerChain) /\
    (rbRand node' = rbRand (chainRandomBeacon peerChain) /\
     bpRand node' = bpRand (chainRandomBeacon peerChain) /\
     ntRand node' = ntRand (chainRandomBeacon peerChain)) /\
    (nextRBCmteHistory node' = nextRBCmteHistory (chainRandomBeacon peerChain) /\
     nextBPCmteHistory node' = nextBPCmteHistory (chainRandomBeacon peerChain) /\
     nextNtCmteHistory node' = nextNtCmteHistory (chainRandomBeacon peerChain)).
Proof.
  intros Hnode Hpeer [rest Hrest].
  set (peer := chainRandomBeacon peerChain) in *.
  unfold History in *.
  assert (getSyncData peerChain (len (sigHistory node))
          = Returns (rest, if decide (len (sigHistory peer) <= len (sigHistory node))
                           then []
                           else drop (length (sigHistory node))
                                  (FinalizedChain peerChain))) as Hsync.
  { destruct (getSyncData_cases peerChain (len (sigHistory node)))
      as (Hend & Hin & _). fold peer in Hend, Hin. unfold History in Hend, Hin.
    destruct (decide (len (sigHistory peer) <= len (sigHistory node)))
      as [Hle|Hgt].
    - rewrite (Hend Hle). f_equal. f_equal.
      rewrite Hrest in Hle. unfold len in Hle. rewrite length_app in Hle.
      destruct rest; [reflexivity|simpl in Hle; lia].
    - destruct Hin as (-> & _); [unfold len in *; lia|].
      unfold len. rewrite Nat2Z.id. f_equal. f_equal.
      by rewrite Hrest, drop_app_length. }
  eexists rest, _. split; [exact Hsync|].
  destruct (rounds_numbered_inv seed gs cfgPeer peer Hpeer) as [_ Hnum].
  pose proof (reachable_wellFormed seed gs cfgNode node Hnode) as Hwfn.
  destruct (syncRandBeacon_numbered rest node) as [Hloop Hhist].
  { intros j s Hs. apply Hnum.
    - destruct Hwfn as [_ Hne _ _ _ _ _ _]. unfold Round, round, len.
      destruct (sigHistory node); [done|simpl; lia].
    - apply index_Some. unfold Round, round, len. split; [lia|].
      rewrite Hrest.
      replace (Z.to_nat (Z.of_nat (length (sigHistory node)) + Z.of_nat j))
        with (length (sigHistory node) + j)%nat by lia.
      by rewrite lookup_app_r, Nat.add_sub_swap, Nat.sub_diag by lia. }
  rewrite Hloop. simpl. split; [reflexivity|].
  assert (sigHistory (run node (OpRecvRandBeaconSig <$> rest))
          = sigHistory peer) as Hsame by (by rewrite Hhist, Hrest).
  pose proof (reachable_wellFormed seed gs cfgNode _
                (reachable_run seed gs cfgNode node
                   (OpRecvRandBeaconSig <$> rest) Hnode))
    as [_ _ Hrb Hnt Hbp Hrbh Hnth Hbph].
  pose proof (reachable_wellFormed seed gs cfgPeer peer Hpeer)
    as [_ _ Hrb' Hnt' Hbp' Hrbh' Hnth' Hbph'].
  split; [exact Hsame|]. split; [unfold Round, round; by rewrite Hsame|].
  rewrite Hrb, Hnt, Hbp, Hrbh, Hnth, Hbph, Hrb', Hnt', Hbp', Hrbh', Hnth',
    Hbph', Hsame.
  by repeat split.
Qed.

(** X20: the sync loop of [Start] does not undo anything: when the
    signatures it is handed are in order up to one of another round, the
    ones before that one stay applied, the error of that one is returned,
    and the ones after it are not looked at. *)
Theorem sync_stops_at_first_error
  (b : RandomBeacon) (good rest : list RandBeaconSig) (bad : RandBeaconSig) :
  (forall (j : nat) (s : RandBeaconSig),
     good !! j = Some s -> sigRound s = Round b + Z.of_nat j) ->
  sigRound bad <> Round b + len good ->
  syncRandBeacon b (good ++ bad :: rest)
  = (fst (syncRandBeacon b good),
     Some (ErrSigRound (sigRound bad) (Round b + len good))) /\
  History (fst (syncRandBeacon b good)) = History b ++ good.
Proof.
  revert b. induction good as [|s good IH]; intros b Hnum Hbad.
  - simpl. unfold len in *. simpl in *. rewrite Z.add_0_r in *.
    rewrite sig_refused by exact Hbad. split; [reflexivity|].
    by rewrite app_nil_r.
  - assert (sigRound s = Round b) as Hround.
    { rewrite (Hnum 0%nat s eq_refl). lia. }
    assert (Round (fst (RecvRandBeaconSig b s)) = Round b + 1) as Hnext.
    { rewrite sig_accepted by exact Hround. unfold Round, round. simpl.
      apply len_snoc. }
    destruct (IH (fst (RecvRandBeaconSig b s))) as [Hstop Hhist].
    { intros j s' Hs'. rewrite (Hnum (S j) s' Hs'), Hnext. lia. }
    { rewrite Hnext. unfold len in *. simpl in Hbad. lia. }
    simpl.
    destruct (RecvRandBeaconSig b s) as [b' [err|]] eqn:Hrecv.
    { rewrite sig_accepted in Hrecv by exact Hround. discriminate. }
    simpl in *. rewrite Hstop, Hhist, Hnext. split.
    + do 3 f_equal. unfold len. simpl. lia.
    + rewrite sig_accepted in Hrecv by exact Hround.
      injection Hrecv as <-. unfold History. simpl. by rewrite <- app_assoc.
Qed.

End GossipFacts.

(** * The further properties at work on the instance *)

Lemma afterShare2_reachable :
  reachable Sim.seed Sim.groupList Sim.config Sim.afterShare2.
Proof.
  exists [OpRecvRandBeaconSigShare Sim.share1 0;
          OpRecvRandBeaconSigShare Sim.share2 0].
  reflexivity.
Defined.

Lemma shares_in_flight_current_witness :
  GetShare Sim.afterShare2 (shareHash Sim.share2) = Some Sim.share2 /\
  shareRound Sim.share2 = Round Sim.afterShare2 /\
  exists last : RandBeaconSig,
    index (sigHistory Sim.afterShare2) (Round Sim.afterShare2 - 1) = Some last /\
    shareLastSigHash Sim.share2 = hash (sigSig last).
Proof.
  assert (GetShare Sim.afterShare2 (shareHash Sim.share2) = Some Sim.share2)
    as Hstored by evaluated.
  split; [exact Hstored|].
  exact (proj2 (shares_in_flight_current Sim.seed Sim.groupList Sim.config
                  Sim.afterShare2 afterShare2_reachable _ _ Hstored)).
Defined.

Lemma history_rounds_numbered_witness :
  index (sigHistory Sim.roundTwo) 1 = Some Sim.sig1 /\
  sigRound Sim.sig1 = 1.
Proof.
  assert (index (sigHistory Sim.roundTwo) 1 = Some Sim.sig1) as Hat
    by evaluated.
  split; [exact Hat|].
  destruct (history_rounds_numbered Sim.seed Sim.groupList Sim.config
              Sim.roundTwo roundTwo_reachable) as [_ Hnum].
  apply (Hnum 1 Sim.sig1); [evaluate|exact Hat].
Defined.

Lemma Committees_of_the_streams_witness :
  Committees Sim.roundTwo
  = Returns (Mod (rbRand Sim.roundTwo) (len Sim.groupList),
             Mod (bpRand Sim.roundTwo) (len Sim.groupList),
             Mod (ntRand Sim.roundTwo) (len Sim.groupList)) /\
  Committees (fst (RecvRandBeaconSigShare Sim.roundTwo
                     SimGossip.shareOfRoundTwo 1))
  = Committees Sim.roundTwo.
Proof.
  destruct (Committees_of_the_streams Sim.seed Sim.groupList Sim.config
              Sim.roundTwo roundTwo_reachable) as [Hnow Hshare].
  split; [exact Hnow|apply Hshare].
Defined.

(** The committees of the scenario in round 2. *)
Example Committees_of_roundTwo : Committees Sim.roundTwo = Returns (0, 2, 2).
Proof. evaluated. Qed.

Lemma afterShare1_reachable :
  reachable Sim.seed Sim.groupList Sim.config Sim.afterShare1.
Proof. exists [OpRecvRandBeaconSigShare Sim.share1 0]. reflexivity. Defined.

Lemma RecvRandBeaconSigShare_panics_only_in_recovery_witness :
  (exists msg : string,
     snd (RecvRandBeaconSigShare Sim.afterShare1 Sim.share2 9) = Panics msg) /\
  ~ (exists msg : string,
       snd (RecvRandBeaconSigShare Sim.afterShare1 Sim.staleShare 9)
       = Panics msg).
Proof.
  split.
  - apply (RecvRandBeaconSigShare_panics_only_in_recovery
             Sim.seed Sim.groupList Sim.config Sim.afterShare1 Sim.share2 9
             afterShare1_reachable).
    split; [exact afterShare1_admits_share2|]. split; [evaluate|].
    assert (index (groups Sim.afterShare1) 9 = None) as -> by evaluated.
    exact I.
  - intros Hpanic.
    apply (RecvRandBeaconSigShare_panics_only_in_recovery
             Sim.seed Sim.groupList Sim.config Sim.afterShare1 Sim.staleShare 9
             afterShare1_reachable) in Hpanic as [[Hround _] _].
    revert Hround. evaluate.
Defined.

Lemma round_advance_closes_round_witness :
  sigRound Sim.sig1 = Round Sim.afterShare2 /\
  RecvRandBeaconSig (fst (RecvRandBeaconSig Sim.afterShare2 Sim.sig1)) Sim.sig1
  = (fst (RecvRandBeaconSig Sim.afterShare2 Sim.sig1),
     Some (ErrSigRound (Round Sim.afterShare2) (Round Sim.afterShare2 + 1))) /\
  RecvRandBeaconSigShare (fst (RecvRandBeaconSig Sim.afterShare2 Sim.sig1))
    SimGossip.share3 0
  = (fst (RecvRandBeaconSig Sim.afterShare2 Sim.sig1),
     Returns (None, Some (ErrShareRound (Round Sim.afterShare2)
                                        (Round Sim.afterShare2 + 1)))) /\
  GetShare (fst (RecvRandBeaconSig Sim.afterShare2 Sim.sig1))
    (shareHash Sim.share1) = None.
Proof.
  assert (sigRound Sim.sig1 = Round Sim.afterShare2) as Hround by evaluate.
  pose proof (round_advance_closes_round Sim.afterShare2 Sim.sig1 Hround)
    as Hthm.
  cbv zeta in Hthm. destruct Hthm as (Hsig & Hshare & Hget).
  split; [exact Hround|].
  split; [exact (Hsig Sim.sig1 Hround)|].
  split; [|apply Hget].
  apply Hshare. evaluate.
Defined.

Lemma afterShare2_admits_share3 : admits Sim.afterShare2 SimGossip.share3.
Proof.
  unfold Sim.afterShare2.
  rewrite (share_admitted _ _ _ afterShare1_admits_share2).
  apply admits_set_shares. unfold Sim.afterShare1.
  rewrite (share_admitted _ _ _ (genesis_admits Sim.share1 eq_refl eq_refl)).
  apply admits_set_shares.
  exact (genesis_admits SimGossip.share3 eq_refl eq_refl).
Defined.

Lemma recovery_repeats_after_threshold_witness :
  admits Sim.afterShare2 SimGossip.share3 /\
  GroupThreshold (cfg Sim.afterShare2)
    <= Z.of_nat (size (curRoundShares Sim.afterShare2)) /\
  snd (RecvRandBeaconSigShare Sim.afterShare2 SimGossip.share3 0)
    <> Returns (None, None).
Proof.
  assert (GroupThreshold (cfg Sim.afterShare2)
          <= Z.of_nat (size (curRoundShares Sim.afterShare2))) as Hmet
    by evaluate.
  split; [exact afterShare2_admits_share3|]. split; [exact Hmet|].
  apply (recovery_repeats_after_threshold Sim.afterShare2 SimGossip.share3 0
           afterShare2_admits_share3 (or_introl Hmet)).
Defined.

Lemma next_round_shares_bound_to_signature_witness :
  sigRound Sim.sig1 = Round Sim.afterShare2 /\
  admits (fst (RecvRandBeaconSig Sim.afterShare2 Sim.sig1))
    SimGossip.shareOfRoundTwo /\
  ~ admits (fst (RecvRandBeaconSig Sim.afterShare2 Sim.sig1)) SimGossip.share3.
Proof.
  assert (sigRound Sim.sig1 = Round Sim.afterShare2) as Hround by evaluate.
  split; [exact Hround|]. split.
  - apply (next_round_shares_bound_to_signature Sim.afterShare2 Sim.sig1
             SimGossip.shareOfRoundTwo Hround).
    split; [evaluate|reflexivity].
  - intros Hadm.
    apply (next_round_shares_bound_to_signature Sim.afterShare2 Sim.sig1
             SimGossip.share3 Hround) in Hadm as [Hsh _].
    revert Hsh. evaluate.
Defined.

Lemma node5_reaches_peer :
  snd (findOrConnect (Sim.node 5) "peer") = inr "peer"%string.
Proof. reflexivity. Defined.

Lemma findOrConnect_remembers_witness :
  peers (fst (findOrConnect (Sim.node 5) "peer")) !! "peer"%string
  = Some "peer"%string /\
  findOrConnect (fst (findOrConnect (Sim.node 5) "peer")) "peer"
  = (fst (findOrConnect (Sim.node 5) "peer"), inr "peer"%string) /\
  findOrConnect (Sim.node 5) "" = (Sim.node 5, inl "unreachable"%string).
Proof.
  pose proof (findOrConnect_remembers (Sim.node 5)
                (fst (findOrConnect (Sim.node 5) "peer")) "peer"
                (inr "peer"%string) eq_refl)
    as (_ & Hpeers & _ & _ & _ & Hagain).
  pose proof (findOrConnect_remembers (Sim.node 5)
                (fst (findOrConnect (Sim.node 5) ""))
                "" (inl "unreachable"%string) eq_refl)
    as (Hsame & _ & _).
  split; [by rewrite Hpeers, lookup_insert_eq|]. split; [exact Hagain|].
  rewrite <- Hsame at 2. reflexivity.
Defined.

Lemma recvInventory_requests_wanted_witness :
  requests (fst (snd (recvInventory (Sim.node 5) "peer"
                        [Sim.shareItem 5 77%N; Sim.shareItem 4 77%N;
                         SimGossip.blockItem 9%N; Sim.shareItem 5 77%N])))
  = [("peer"%string, "self"%string, [Sim.shareItem 5 77%N]);
     ("peer"%string, "self"%string, [SimGossip.blockItem 9%N]);
     ("peer"%string, "self"%string, [Sim.shareItem 5 77%N])] /\
  peers (fst (recvInventory (Sim.node 5) "peer"
                [Sim.shareItem 5 77%N; Sim.shareItem 4 77%N;
                 SimGossip.blockItem 9%N; Sim.shareItem 5 77%N]))
  = <["peer"%string := "peer"%string]> (peers (Sim.node 5)).
Proof.
  destruct (recvInventory_requests_wanted (Sim.node 5) "peer"
              [Sim.shareItem 5 77%N; Sim.shareItem 4 77%N;
               SimGossip.blockItem 9%N; Sim.shareItem 5 77%N]
              "peer"%string node5_reaches_peer)
    as (_ & Hreq & Hpeers & _).
  - intros id Hid [HT|HT];
      repeat (apply elem_of_cons in Hid as [->|Hid]; [discriminate|]);
      by apply elem_of_nil in Hid.
  - split; [|exact Hpeers]. rewrite Hreq. evaluated.
Defined.

Lemma recvInventory_stops_at_transaction_witness :
  snd (recvInventory (Sim.node 5) "peer"
         ([Sim.shareItem 5 77%N] ++ SimGossip.txnItem
            :: [Sim.shareItem 5 78%N]))
  = (fst (snd (recvInventory (Sim.node 5) "peer" [Sim.shareItem 5 77%N])),
     Panics "not implemented") /\
  recvInventory (Sim.node 5) "" [SimGossip.txnItem]
  = (Sim.node 5, ([Log (LogError "unreachable"%string)], Returns tt)).
Proof.
  destruct (recvInventory_stops_at_transaction (Sim.node 5) "peer")
    as [Hstop _].
  destruct (recvInventory_stops_at_transaction (Sim.node 5) "")
    as [_ Hlost].
  split.
  - apply (Hstop "peer"%string); [exact node5_reaches_peer| |by left].
    intros i Hi [HT|HT]; apply list_elem_of_singleton in Hi as ->;
      discriminate.
  - apply Hlost. reflexivity.
Defined.

Lemma peerNode_reaches_peer :
  snd (findOrConnect SimGossip.peerNode "peer") = inr "peer"%string.
Proof. reflexivity. Defined.

Lemma serveData_stops_at_unservable_witness :
  snd (serveData SimGossip.peerNode "peer"
         ([Sim.beaconItem 1] ++ Sim.beaconItem (-1) :: [Sim.beaconItem 0]))
  = (fst (snd (serveData SimGossip.peerNode "peer" [Sim.beaconItem 1])),
     Panics "index out of range") /\
  snd (snd (serveData SimGossip.peerNode "peer"
              [Sim.beaconItem 1; Sim.beaconItem 7; SimGossip.blockItem 9%N]))
  = Returns tt.
Proof.
  destruct (serveData_stops_at_unservable SimGossip.peerNode "peer")
    as (Hfine & Hstop & _).
  split.
  - apply (Hstop "peer"%string [Sim.beaconItem 1] [Sim.beaconItem 0]
             (Sim.beaconItem (-1)) peerNode_reaches_peer).
    + intros i Hi [[HT|HT]|[_ Hneg]];
        apply list_elem_of_singleton in Hi as ->;
        first [discriminate | revert Hneg; evaluate].
    + right. split; [reflexivity|evaluate].
  - apply (Hfine "peer"%string _ peerNode_reaches_peer).
    intros i Hi [[HT|HT]|[_ Hneg]];
      repeat (apply elem_of_cons in Hi as [->|Hi];
              [first [discriminate | revert Hneg; evaluate]|]);
      by apply elem_of_nil in Hi.
Defined.

Lemma serveData_serves_rounds_witness :
  exists sigs : list RandBeaconSig,
    snd (serveData SimGossip.peerNode "peer"
           [Sim.beaconItem 1; Sim.beaconItem 0])
    = (SendRandBeaconSig "peer"%string <$> sigs, Returns tt) /\
    sigRound <$> sigs = ItemRound <$> [Sim.beaconItem 1; Sim.beaconItem 0].
Proof.
  destruct (serveData_serves_rounds Sim.seed Sim.groupList Sim.config
              SimGossip.peerNode "peer" "peer"%string
              [Sim.beaconItem 1; Sim.beaconItem 0]
              roundTwo_reachable peerNode_reaches_peer)
    as (sigs & Hserve & Hrounds & _).
  - intros id Hid.
    repeat (apply elem_of_cons in Hid as [->|Hid];
            [split; [reflexivity|split; evaluate]|]).
    by apply elem_of_nil in Hid.
  - exists sigs. by split.
Defined.

Lemma serveData_sends_held_witness :
  SendRandBeaconSig "peer"%string Sim.sig1
  ∈ fst (snd (serveData SimGossip.peerNode "peer" [Sim.beaconItem 1])) /\
  exists id : ItemID,
    id ∈ [Sim.beaconItem 1] /\
    index (History (chainRandomBeacon (chain SimGossip.peerNode)))
          (ItemRound id) = Some Sim.sig1.
Proof.
  assert (SendRandBeaconSig "peer"%string Sim.sig1
          ∈ fst (snd (serveData SimGossip.peerNode "peer" [Sim.beaconItem 1])))
    as Hsent.
  { assert (fst (snd (serveData SimGossip.peerNode "peer" [Sim.beaconItem 1]))
            = [SendRandBeaconSig "peer"%string Sim.sig1]) as -> by evaluated.
    apply list_elem_of_here. }
  split; [exact Hsent|].
  exact (serveData_sends_held SimGossip.peerNode "peer" [Sim.beaconItem 1]
           _ Hsent).
Defined.

Lemma recvRandBeaconSig_gate_witness :
  Round (fst (recvRandBeaconSig Sim.afterShare2 Sim.sig1))
  = Round Sim.afterShare2 + 1 /\
  snd (recvRandBeaconSig Sim.afterShare2 Sim.sig1)
  = [GoBroadcastItem {| idT := RandBeaconItem;
                        ItemRound := Round Sim.afterShare2;
                        Ref := zero_hash; idHash := sigHash Sim.sig1 |}] /\
  fst (recvRandBeaconSig Sim.roundTwo Sim.sig1) = Sim.roundTwo.
Proof.
  destruct (recvRandBeaconSig_gate Sim.afterShare2 Sim.sig1) as [Hacc _].
  destruct (recvRandBeaconSig_gate Sim.roundTwo Sim.sig1) as [_ Hrej].
  destruct Hacc as (_ & Hround & Hacts); [split; evaluate|].
  split; [exact Hround|]. split; [exact Hacts|].
  apply Hrej. intros [_ Hr]. revert Hr. evaluate.
Defined.

Lemma recvRandBeaconSigShare_hands_over_witness :
  recvRandBeaconSigShare Sim.afterShare1 Sim.share2
  = (set_curRoundShares
       (<[shareHash Sim.share2 := Sim.share2]> (curRoundShares Sim.afterShare1))
       Sim.afterShare1,
     ([GoRecvRandBeaconSig
         {| sigRound := shareRound Sim.share2;
            sigLastRandVal := shareLastSigHash Sim.share2;
            sigSig := Serialize (recoverRandBeaconSig
              (<[shareHash Sim.share2 := Sim.share2]>
                 (curRoundShares Sim.afterShare1))) |}],
      Returns tt)).
Proof.
  assert (index (groups Sim.afterShare1) 0
          = Some {| Members := [11; 12; 13]%N; PK := 101%N |}) as Hgroup
    by reflexivity.
  pose proof (recvRandBeaconSigShare_hands_over Sim.afterShare1 Sim.share2 0
                {| Members := [11; 12; 13]%N; PK := 101%N |}
                eq_refl afterShare1_admits_share2) as Hthm.
  cbv zeta in Hthm.
  exact (proj1 (Hthm ltac:(evaluate) Hgroup ltac:(evaluate))).
Defined.

Lemma recvRandBeaconSigShare_gate_witness :
  recvRandBeaconSigShare Sim.genesis Sim.share1
  = (set_curRoundShares
       (<[shareHash Sim.share1 := Sim.share1]> (curRoundShares Sim.genesis))
       Sim.genesis,
     ([GoBroadcastItem {| idT := RandBeaconShareItem;
                          ItemRound := shareRound Sim.share1;
                          Ref := zero_hash;
                          idHash := shareHash Sim.share1 |}], Returns tt)) /\
  fst (recvRandBeaconSigShare Sim.genesis Sim.staleShare) = Sim.genesis.
Proof.
  destruct (recvRandBeaconSigShare_gate Sim.genesis Sim.share1) as [Hacc _].
  destruct (recvRandBeaconSigShare_gate Sim.genesis Sim.staleShare)
    as [_ Hrej].
  split.
  - apply Hacc; [reflexivity|exact (genesis_admits Sim.share1 eq_refl eq_refl)|].
    evaluate.
  - apply Hrej. right. intros [Hround _]. revert Hround. evaluate.
Defined.

Lemma BroadcastItem_reaches_every_peer_witness :
  {| callee := "peer"%string; callSender := addr (Sim.node 5);
     callItems := [Sim.beaconItem 5] |}
  ∈ BroadcastItem (fst (recvInventory (Sim.node 5) "peer" []))
      (Sim.beaconItem 5) /\
  BroadcastItem (Sim.node 5) (Sim.beaconItem 5) = [].
Proof.
  destruct (BroadcastItem_reaches_every_peer (Sim.node 5) (Sim.beaconItem 5))
    as (_ & _ & Hnew & Hlearns).
  split; [exact (Hlearns "peer"%string [] "peer"%string node5_reaches_peer)|].
  exact (Hnew "self"%string (Sim.chainAt 5)).
Defined.

Lemma getSyncData_returns_the_tail_witness :
  getSyncData SimGossip.peerChain 1
  = Returns (drop (Z.to_nat 1) (History (chainRandomBeacon SimGossip.peerChain)),
             drop (Z.to_nat 1) (FinalizedChain SimGossip.peerChain)) /\
  getSyncData SimGossip.peerChain 2 = Returns ([], []) /\
  getSyncData SimGossip.peerChain (-1) = Panics "slice bounds out of range".
Proof.
  pose proof (getSyncData_returns_the_tail SimGossip.peerChain 1) as H1.
  pose proof (getSyncData_returns_the_tail SimGossip.peerChain 2) as H2.
  pose proof (getSyncData_returns_the_tail SimGossip.peerChain (-1)) as H3.
  cbv zeta in H1, H2, H3.
  destruct H1 as (_ & Hin & _), H2 as (Hend & _), H3 as (_ & _ & Hneg).
  split; [|split].
  - apply Hin. split; evaluate.
  - apply Hend. evaluate.
  - apply Hneg. evaluate.
Defined.

(** What the peer of the instance hands to a node that has the stand-in
    signature only: the signature of round 1 and the finalized blocks
    after the first. *)
Example getSyncData_of_the_peer :
  FinalizedChain SimGossip.peerChain = [20%N; 10%N] /\
  getSyncData SimGossip.peerChain 1 = Returns ([Sim.sig1], [10%N]).
Proof. split; evaluated. Qed.

Lemma genesis_reachable :
  reachable Sim.seed Sim.groupList Sim.config Sim.genesis.
Proof. by exists []. Defined.

Lemma sync_catches_up_witness :
  exists (sigs : list RandBeaconSig) (blocks : list N),
    getSyncData SimGossip.peerChain (len (History Sim.genesis))
    = Returns (sigs, blocks) /\
    snd (syncRandBeacon Sim.genesis sigs) = None /\
    History (fst (syncRandBeacon Sim.genesis sigs)) = History Sim.roundTwo /\
    nextBPCmteHistory (fst (syncRandBeacon Sim.genesis sigs))
    = nextBPCmteHistory Sim.roundTwo.
Proof.
  destruct (sync_catches_up Sim.seed Sim.groupList Sim.config Sim.config
              Sim.genesis SimGossip.peerChain
              genesis_reachable roundTwo_reachable)
    as (sigs & blocks & Hsync & Hok & Hhist & _ & _ & (_ & Hbp & _)).
  - exists [Sim.sig1]. evaluated.
  - exists sigs, blocks. by repeat split.
Defined.

Lemma sync_stops_at_first_error_witness :
  syncRandBeacon Sim.genesis ([Sim.sig1] ++ Sim.sig1 :: [Sim.sig1])
  = (fst (syncRandBeacon Sim.genesis [Sim.sig1]),
     Some (ErrSigRound (sigRound Sim.sig1)
                       (Round Sim.genesis + len [Sim.sig1]))) /\
  History (fst (syncRandBeacon Sim.genesis [Sim.sig1]))
  = History Sim.genesis ++ [Sim.sig1].
Proof.
  apply sync_stops_at_first_error.
  - intros [|j] s Hs; [|by destruct j]. injection Hs as <-. evaluate.
  - evaluate.
Defined.
